(** * The subscription store of the renderer

    A shallow embedding of the subscription actions (the zustand store
    [useSubscriptionStore] and the class [SubscriptionActions]) together
    with the properties its specification states about them.

    The store holds two JavaScript objects: [data], keyed by feed id, and
    [feedIdByView], which has one array of feed ids per [FeedViewType].
    Every update goes through [set] with an immer [produce] recipe, so an
    update is a function from the old state to the new one. *)

From Stdlib Require Import ZArith Ascii String.
From stdpp Require Import gmap strings list fin_maps.

Local Open Scope Z_scope.

(** ** Data model *)

(** [FeedViewType] of [~/lib/enum]: the six members that
    [emptyDataIdByView] lists. *)
Inductive FeedViewType : Set :=
  | Articles
  | SocialMedia
  | Pictures
  | Videos
  | Audios
  | Notifications.

#[global] Instance FeedViewType_eq_dec : EqDecision FeedViewType.
Proof. solve_decision. Defined.

(** The keys of [emptyDataIdByView], which are the keys every
    [feedIdByView] object has. *)
Definition all_views : list FeedViewType :=
  [Articles; SocialMedia; Pictures; Videos; Audios; Notifications].

(** The part of a feed record the store reads. *)
Record FeedModel : Set := mkFeed {
  feed_id : string;
  siteUrl : option string;
}.

(** [SubscriptionModel]: a subscription as the API returns it. A
    [category] that is [null] or [undefined] is [None]. *)
Record SubscriptionModel : Set := mkSubscription {
  sub_feedId : string;
  sub_view : FeedViewType;
  sub_category : option string;
  sub_feeds : option FeedModel;
}.

(** [SubscriptionFlatModel = Omit<SubscriptionModel, "feeds"> &
    { defaultCategory?: string }]. *)
Record SubscriptionFlatModel : Set := mkFlat {
  feedId : string;
  view : FeedViewType;
  category : option string;
  defaultCategory : option string;
}.

#[global] Instance FeedModel_eq_dec : EqDecision FeedModel.
Proof. solve_decision. Defined.
#[global] Instance SubscriptionModel_eq_dec : EqDecision SubscriptionModel.
Proof. solve_decision. Defined.
#[global] Instance SubscriptionFlatModel_eq_dec : EqDecision SubscriptionFlatModel.
Proof. solve_decision. Defined.

(** [SubscriptionState]. [feedIdByView] always has the six keys of
    [emptyDataIdByView], so it is a total function on [FeedViewType]. *)
Record SubscriptionState : Type := mkState {
  data : gmap string SubscriptionFlatModel;
  feedIdByView : FeedViewType → list string;
}.

Definition emptyDataIdByView : FeedViewType → list string := λ _, [].

(** The initial state of [useSubscriptionStore]. *)
Definition initialState : SubscriptionState :=
  {| data := ∅; feedIdByView := emptyDataIdByView |}.

(** [{ ...buckets, [v]: ids }] and [buckets[v] = ids]. *)
Definition set_bucket (v : FeedViewType) (ids : list string)
    (buckets : FeedViewType → list string) : FeedViewType → list string :=
  λ v', if decide (v' = v) then ids else buckets v'.

(** ** JavaScript values and arrays *)

(** Truthiness of a [string | null | undefined]: the empty string, [null]
    and [undefined] are falsy. *)
Definition truthy (o : option string) : bool :=
  match o with
  | Some (String _ _) => true
  | _ => false
  end.

(** [a === b] where [a] may be [null] or [undefined] and [b] is a string. *)
Definition strict_eq (a : option string) (b : string) : bool :=
  bool_decide (a = Some b).

(** [Array.prototype.indexOf]: the index of the first element equal to
    [x], and [-1] when there is none. *)
Fixpoint indexOf (x : string) (l : list string) : Z :=
  match l with
  | [] => -1
  | y :: l' =>
      if decide (y = x) then 0
      else let i := indexOf x l' in if i <? 0 then -1 else i + 1
  end.

(** [Array.prototype.splice(start, 1)]: a negative [start] counts from the
    end of the array ([max(len + start, 0)]), a [start] beyond the end is
    the end; one element is deleted from there when there is one. *)
Definition splice1 (start : Z) (l : list string) : list string :=
  let len := Z.of_nat (length l) in
  let k := if start <? 0 then Z.max (len + start) 0 else Z.min start len in
  take (Z.to_nat k) l ++ drop (S (Z.to_nat k)) l.

(** [Array.prototype.push]. *)
Definition push (x : string) (l : list string) : list string := l ++ [x].

(** The list without the first occurrence of [x]. *)
Fixpoint remove_first (x : string) (l : list string) : list string :=
  match l with
  | [] => []
  | y :: l' => if decide (y = x) then l' else y :: remove_first x l'
  end.

(** ** Collaborators that are not part of the store *)

(** [parse] of the tldts package, of which the store reads the [domain]
    field only, and [capitalizeFirstLetter] of [~/lib/utils]. *)
Class DomainLib : Type := {
  parse_domain : string → option string;
  capitalizeFirstLetter : string → string;
}.

Section Morph.
Context `{DomainLib}.

(** [cloned.defaultCategory = d]. *)
Definition with_defaultCategory (cloned : SubscriptionFlatModel)
    (d : string) : SubscriptionFlatModel :=
  {| feedId := feedId cloned; view := view cloned;
     category := category cloned; defaultCategory := Some d |}.

(** The body of the loop of [morphResponseData]. The clone keeps every
    field of the subscription; [feeds] is not a field of
    [SubscriptionFlatModel] and [upsertMany] omits it before storing. *)
Definition morphSubscription (s : SubscriptionModel) : SubscriptionFlatModel :=
  let cloned :=
    {| feedId := sub_feedId s; view := sub_view s;
       category := sub_category s; defaultCategory := None |} in
  match sub_feeds s with
  | Some feeds =>
      if negb (truthy (sub_category s)) then
        if negb (truthy (siteUrl feeds)) then
          with_defaultCategory cloned (sub_feedId s)
        else
          match siteUrl feeds ≫= parse_domain with
          | Some domain =>
              if truthy (Some domain)
              then with_defaultCategory cloned (capitalizeFirstLetter domain)
              else with_defaultCategory cloned (sub_feedId s)
          | None => with_defaultCategory cloned (sub_feedId s)
          end
      else cloned
  | None => cloned
  end.

Definition morphResponseData (l : list SubscriptionModel)
    : list SubscriptionFlatModel :=
  map morphSubscription l.
End Morph.

(** ** The world around the store

    The store calls the persistence layer and the entry and unread stores
    for their effect only. Such a call is recorded in the order it is
    made; the feed store, which the store reads back, is kept as a map. *)

Record MarkReadFilter : Set := mkFilter {
  startTime : Z;
  endTime : Z;
}.

Inductive Call : Type :=
  | SubscriptionService_upsertMany (subscriptions : list SubscriptionFlatModel)
  | SubscriptionService_upsert (subscription : SubscriptionFlatModel)
  | SubscriptionService_removeSubscription (feedId : string)
  | SubscriptionService_renameCategory (ids : list string) (newCategory : string)
  | SubscriptionService_changeView (feedId : string) (view : FeedViewType)
  | feedUnreadActions_updateByFeedId (feedId : string) (unread : Z)
  | feedUnreadActions_fetchUnreadByView (view : option FeedViewType)
  | entryActions_patchManyByFeedId (feedId : string) (filter : option MarkReadFilter)
  | entryActions_clearByFeedId (feedId : string).

Record World : Type := mkWorld {
  store : SubscriptionState;
  feedStore : gmap string FeedModel;
  calls : list Call;
}.

Definition initialWorld : World :=
  {| store := initialState; feedStore := ∅; calls := [] |}.

(** A promise that has settled. *)
Inductive Outcome (A : Type) : Type :=
  | Fulfilled (a : A)
  | Rejected.
Arguments Fulfilled {A} a.
Arguments Rejected {A}.

(** An asynchronous method: it runs on a world and settles. An [await]
    on a rejected promise rejects the method there, with the effects made
    so far in place. *)
Definition Action (A : Type) : Type := World → Outcome A * World.

#[global] Instance Action_ret : MRet Action := λ A a w, (Fulfilled a, w).
#[global] Instance Action_bind : MBind Action := λ A B f m w,
  match m w with
  | (Fulfilled a, w') => f a w'
  | (Rejected, w') => (Rejected, w')
  end.

(** The world an action leaves. *)
Definition exec {A} (m : Action A) (w : World) : World := (m w).2.

(** [get()] and [set(recipe)] of the zustand store. *)
Definition get : Action SubscriptionState := λ w, (Fulfilled (store w), w).
Definition set (recipe : SubscriptionState → SubscriptionState) : Action unit :=
  λ w, (Fulfilled (),
        {| store := recipe (store w); feedStore := feedStore w; calls := calls w |}).

(** A call to a collaborator, made for its effect. *)
Definition call (c : Call) : Action unit :=
  λ w, (Fulfilled (),
        {| store := store w; feedStore := feedStore w; calls := calls w ++ [c] |}).

(** A request to the API: how it settles is given from outside. *)
Definition remote {A} (settles : Outcome A) : Action A := λ w, (settles, w).

(** A promise that the method neither awaits nor returns: what it does is
    done, how it settles is dropped, and the method goes on. *)
Definition detached {A} (m : Action A) : Action unit :=
  λ w, (Fulfilled (), (m w).2).

(** The [json] of a request to [apiClient.reads.all.$post]. *)
Inductive ReadsAllJson : Type :=
  | reads_of_view (view : FeedViewType) (filter : option MarkReadFilter)
  | reads_of_feedIdList (feedIdList : list string) (filter : option MarkReadFilter).

(** [apiClient.reads.all.$post({ json })]. The request is not part of the
    world; [response] is how it settles. *)
Definition apiClient_reads_all_post (json : ReadsAllJson)
    (response : Outcome unit) : Action unit :=
  remote response.

(** [for (const x of l) body(x)]. *)
Fixpoint for_each {A} (l : list A) (body : A → Action unit) : Action unit :=
  match l with
  | [] => mret ()
  | x :: l' => body x;; for_each l' body
  end.

(** [if (c) body]. *)
Definition when (c : bool) (body : Action unit) : Action unit :=
  if c then body else mret ().

(** [getFeedById] of the feed store. *)
Definition getFeedById (id : string) : Action (option FeedModel) :=
  λ w, (Fulfilled (feedStore w !! id), w).

(** The feed store as a recipe sees it: the recipe of [deleteCategory]
    calls [getFeedById] once per subscription, and nothing writes to the
    feed store meanwhile. *)
Definition getFeeds : Action (gmap string FeedModel) :=
  λ w, (Fulfilled (feedStore w), w).

(** Modelled from the spec: [feedActions.upsertMany] of the feed store is
    not among the sources; the spec names the feed store's operations
    [upsertMany] and [getById], keyed by feed id. A subscription without a
    feed record contributes nothing. *)
Definition feedActions_upsertMany (feeds : list (option FeedModel)) : Action unit :=
  λ w, (Fulfilled (),
        {| store := store w;
           feedStore := foldl (λ m o, match o with
                                      | Some f => <[feed_id f := f]> m
                                      | None => m
                                      end) (feedStore w) feeds;
           calls := calls w |}).

Record MutationAndTransactionOptions : Set := mkOptions {
  doTranscationWhenMutationFail : bool;
  waitMutation : bool;
}.

(** Modelled from the spec: the defaults of [doMutationAndTransaction],
    which is not among the sources. The spec does not describe the options
    of the helper; it gives the operations that pass none
    ([markReadByView], [markReadByFeedIds]) the remote-first contract, no
    local effect unless the remote call succeeds, and that is what these
    defaults amount to. [deleteCategory] passes both options itself, so
    the defaults of the helper may well be other ones: what a method that
    passes no options does after a rejected call is stated below only
    where it holds for either default. *)
Definition defaultOptions : MutationAndTransactionOptions :=
  {| doTranscationWhenMutationFail := false; waitMutation := true |}.

(** Modelled from the spec: [doMutationAndTransaction] of
    [../utils/helper] is not among the sources. It issues the remote
    mutation and applies the local transaction; a rejected mutation
    rejects the whole, and the transaction is then applied only when
    [doTranscationWhenMutationFail] asks for it. The order that
    [waitMutation] fixes is the order of this sequential model. *)
Definition doMutationAndTransaction {A B} (mutation : Action A)
    (transaction : Action B)
    (options : option MutationAndTransactionOptions) : Action B :=
  λ w,
    let o := default defaultOptions options in
    match mutation w with
    | (Fulfilled _, w') => transaction w'
    | (Rejected, w') =>
        if doTranscationWhenMutationFail o
        then (Rejected, (transaction w').2)
        else (Rejected, w')
    end.

(** ** The recipes passed to [produce] *)

(** [omit(subscription, "feeds")] is the identity on a
    [SubscriptionFlatModel]. One round of the [forEach] of [upsertMany]. *)
Definition upsert_one (st : SubscriptionState) (subscription : SubscriptionFlatModel)
    : SubscriptionState :=
  {| data := <[feedId subscription := subscription]> (data st);
     feedIdByView :=
       set_bucket (view subscription)
         (push (feedId subscription) (feedIdByView st (view subscription)))
         (feedIdByView st) |}.

Definition upsertMany_produce (subscriptions : list SubscriptionFlatModel)
    (st : SubscriptionState) : SubscriptionState :=
  foldl upsert_one st subscriptions.

(** The reset of [fetchByView]: one bucket, or all of them. *)
Definition reset_buckets (view : option FeedViewType) (st : SubscriptionState)
    : SubscriptionState :=
  match view with
  | Some v => {| data := data st; feedIdByView := set_bucket v [] (feedIdByView st) |}
  | None => {| data := data st; feedIdByView := emptyDataIdByView |}
  end.

(** [currentViewFeedIds.splice(currentViewFeedIds.indexOf(feedId), 1)]. *)
Definition splice_indexOf (id : string) (l : list string) : list string :=
  splice1 (indexOf id l) l.

Definition unfollow_produce (id : string) (draft : SubscriptionState)
    : SubscriptionState :=
  {| data := delete id (data draft);
     feedIdByView :=
       foldl (λ buckets v, set_bucket v (splice_indexOf id (buckets v)) buckets)
         (feedIdByView draft) all_views |}.

(** [subscription.category === c || subscription.defaultCategory === c]. *)
Definition in_category (c : string) (subscription : SubscriptionFlatModel) : bool :=
  strict_eq (category subscription) c || strict_eq (defaultCategory subscription) c.

(** The test of the first loop of [changeCategoryView]: a feed id without
    a subscription is skipped. *)
Definition in_folder (c : string) (st : SubscriptionState) (id : string) : bool :=
  match data st !! id with
  | Some subscription => in_category c subscription
  | None => false
  end.

Definition folderFeedIds (c : string) (currentView : FeedViewType)
    (st : SubscriptionState) : list string :=
  filter (λ id, Is_true (in_folder c st id)) (feedIdByView st currentView).

Definition set_view (v : FeedViewType) (s : SubscriptionFlatModel)
    : SubscriptionFlatModel :=
  {| feedId := feedId s; view := v; category := category s;
     defaultCategory := defaultCategory s |}.

(** One round of the loop in the recipe of [changeCategoryView]. When the
    two views are the same the two arrays are one array. *)
Definition move_one (currentView changeToView : FeedViewType)
    (st : SubscriptionState) (id : string) : SubscriptionState :=
  let buckets := feedIdByView st in
  let spliced :=
    set_bucket currentView (splice_indexOf id (buckets currentView)) buckets in
  {| data := alter (set_view changeToView) id (data st);
     feedIdByView := set_bucket changeToView (push id (spliced changeToView)) spliced |}.

Definition changeCategoryView_produce (ids : list string)
    (currentView changeToView : FeedViewType) (st : SubscriptionState)
    : SubscriptionState :=
  foldl (move_one currentView changeToView) st ids.

Definition set_category (newCategory : string) (s : SubscriptionFlatModel)
    : SubscriptionFlatModel :=
  {| feedId := feedId s; view := view s; category := Some newCategory;
     defaultCategory := None |}.

(** The feed ids that [renameCategory] collects from [state.data], in the
    order of [map_to_list]. *)
Definition subscriptionIds (lastCategory : string) (st : SubscriptionState)
    : list string :=
  (filter (λ kv, Is_true (in_category lastCategory kv.2)) (map_to_list (data st))).*1.

Definition renameCategory_produce (ids : list string) (newCategory : string)
    (st : SubscriptionState) : SubscriptionState :=
  {| data := foldl (λ d id, alter (set_category newCategory) id d) (data st) ids;
     feedIdByView := feedIdByView st |}.

Section Actions.
Context `{DomainLib}.

(** What the recipe of [deleteCategory] does to one subscription whose
    key is in the id set. *)
Definition clear_category (feeds : gmap string FeedModel)
    (subscription : SubscriptionFlatModel) : SubscriptionFlatModel :=
  match feeds !! feedId subscription with
  | None => subscription
  | Some feed =>
      if negb (truthy (siteUrl feed)) then subscription
      else
        let domain := siteUrl feed ≫= parse_domain in
        {| feedId := feedId subscription; view := view subscription;
           category := None;
           defaultCategory :=
             if truthy domain then capitalizeFirstLetter <$> domain
             else defaultCategory subscription |}
  end.

Definition deleteCategory_produce (feeds : gmap string FeedModel)
    (ids : list string) (st : SubscriptionState) : SubscriptionState :=
  {| data :=
       map_imap (λ id subscription,
         Some (if bool_decide (id ∈ ids)
               then clear_category feeds subscription
               else subscription)) (data st);
     feedIdByView := feedIdByView st |}.

(** ** The methods of [SubscriptionActions] *)

(** [upsertMany]: the write to the persistence layer, then the state. *)
Definition upsertMany (subscriptions : list SubscriptionFlatModel) : Action unit :=
  call (SubscriptionService_upsertMany subscriptions);;
  set (upsertMany_produce subscriptions).

(** [fetchByView(view?)]; [response] is how the request settles. A rejected
    request rejects the method at its [await], before any [set]. *)
Definition fetchByView (view : option FeedViewType)
    (response : Outcome (list SubscriptionModel))
    : Action (list SubscriptionModel) :=
  res ← remote response;
  set (reset_buckets view);;
  let transformedData := morphResponseData res in
  upsertMany transformedData;;
  feedActions_upsertMany (map sub_feeds res);;
  mret res.

(** The feed ids of [state.data] whose subscription has the view, in the
    order of [map_to_list], which is not the order in which JavaScript
    enumerates the keys; no statement below depends on that order. *)
Definition feedIdsOfView (v : FeedViewType) (st : SubscriptionState) : list string :=
  (filter (λ kv, view kv.2 = v) (map_to_list (data st))).*1.

(** The body of the loops of [markReadByView] and [markReadByFeedIds]. *)
Definition markRead_each (filter : option MarkReadFilter) (id : string)
    : Action unit :=
  when (negb (bool_decide (is_Some filter)))
       (call (feedUnreadActions_updateByFeedId id 0));;
  call (entryActions_patchManyByFeedId id filter).

(** [markReadByView(view, filter?)]. The call of
    [doMutationAndTransaction] is neither awaited nor returned, so the
    method is fulfilled however the helper settles; no options are passed
    to the helper. *)
Definition markReadByView (view : FeedViewType) (filter : option MarkReadFilter)
    (response : Outcome unit) : Action unit :=
  detached
    (doMutationAndTransaction
       (apiClient_reads_all_post (reads_of_view view filter) response)
       (state ← get;
        for_each (feedIdsOfView view state) (markRead_each filter);;
        when (bool_decide (is_Some filter))
             (call (feedUnreadActions_fetchUnreadByView (Some view))))
       None).

(** [markReadByFeedIds(feedIds, view?, filter?)], in the same way. *)
Definition markReadByFeedIds (feedIds : list string)
    (view : option FeedViewType) (filter : option MarkReadFilter)
    (response : Outcome unit) : Action unit :=
  let stableFeedIds := feedIds in
  detached
    (doMutationAndTransaction
       (apiClient_reads_all_post (reads_of_feedIdList stableFeedIds filter)
          response)
       (for_each stableFeedIds (markRead_each filter);;
        when (bool_decide (is_Some filter))
             (call (feedUnreadActions_fetchUnreadByView view)))
       None).

(** [clear()]. *)
Definition clear : Action unit := set (λ _, initialState).

(** [deleteCategory(ids)], with the options it passes. *)
Definition deleteCategory (ids : list string) (response : Outcome unit)
    : Action unit :=
  doMutationAndTransaction (remote response)
    (feeds ← getFeeds;
     set (deleteCategory_produce feeds ids);;
     state ← get;
     for_each ids (λ id,
       match data state !! id with
       | Some subscription => call (SubscriptionService_upsert subscription)
       | None => mret ()
       end))
    (Some {| doTranscationWhenMutationFail := false; waitMutation := true |}).

(** [unfollow(feedId)]: the state is written before the remote call is
    issued. *)
Definition unfollow (id : string) (response : Outcome unit)
    : Action (option FeedModel) :=
  feed ← getFeedById id;
  set (unfollow_produce id);;
  call (entryActions_clearByFeedId id);;
  call (feedUnreadActions_updateByFeedId id 0);;
  doMutationAndTransaction (remote response)
    (call (SubscriptionService_removeSubscription id))
    None;;
  mret feed.

(** [changeCategoryView(category, currentView, changeToView)]. [patch]
    tells how the request for each feed id settles; [Promise.all] rejects
    when one of them does, and the method stops at its [await]. *)
Definition changeCategoryView (c : string)
    (currentView changeToView : FeedViewType)
    (patch : string → Outcome unit) : Action unit :=
  state ← get;
  let ids := folderFeedIds c currentView state in
  for_each ids (λ id, remote (patch id));;
  set (changeCategoryView_produce ids currentView changeToView);;
  for_each ids (λ id, call (SubscriptionService_changeView id changeToView)).

(** [renameCategory(lastCategory, newCategory)]: the state is written
    before the remote call is issued. *)
Definition renameCategory (lastCategory newCategory : string)
    (response : Outcome unit) : Action unit :=
  state ← get;
  let ids := subscriptionIds lastCategory state in
  set (renameCategory_produce ids newCategory);;
  doMutationAndTransaction (remote response)
    (call (SubscriptionService_renameCategory ids newCategory))
    None.
End Actions.

(** ** A small instance of the domain library

    The theorems below hold for every [DomainLib]. The scenarios are run
    on this instance: a model of the [domain] field of [parse] of tldts
    for host names under a public suffix of one label (the registrable
    domain is then the last two labels of the host name), and of
    [capitalizeFirstLetter] on ASCII. Public suffixes of more than one
    label, for which tldts consults the public suffix list, and the
    validation of the characters of the host name are outside this
    model. *)
Module Tldts.
Definition ends_authority (c : ascii) : bool :=
  bool_decide (c = "/"%char ∨ c = "?"%char ∨ c = "#"%char).

(** The part of a URL after [://], when it starts with a scheme. *)
Fixpoint after_scheme (s : string) : option string :=
  match s with
  | String ":"%char (String "/"%char (String "/"%char r)) => Some r
  | String c r => if ends_authority c then None else after_scheme r
  | EmptyString => None
  end.

(** The string up to the first character that [stop] accepts. *)
Fixpoint take_until (stop : ascii → bool) (s : string) : string :=
  match s with
  | String c r => if stop c then EmptyString else String c (take_until stop r)
  | EmptyString => EmptyString
  end.

(** The part after the last [@], when there is one: the authority without
    its user information. *)
Fixpoint after_at (s : string) : option string :=
  match s with
  | String c r =>
      match after_at r with
      | Some t => Some t
      | None => if bool_decide (c = "@"%char) then Some r else None
      end
  | EmptyString => None
  end.

Definition lower (c : ascii) : ascii :=
  let n := nat_of_ascii c in
  if ((65 <=? n) && (n <=? 90))%nat then ascii_of_nat (n + 32) else c.

Fixpoint lower_case (s : string) : string :=
  match s with
  | String c r => String (lower c) (lower_case r)
  | EmptyString => EmptyString
  end.

(** The host name of a URL: after the scheme, up to the path, without user
    information and port, in lower case. *)
Definition hostname (url : string) : string :=
  let authority := take_until ends_authority (default url (after_scheme url)) in
  let host_port := default authority (after_at authority) in
  lower_case (take_until (λ c, bool_decide (c = ":"%char)) host_port).

(** The labels of a host name, between the dots. *)
Fixpoint labels (s : string) (label : string) : list string :=
  match s with
  | String c r =>
      if bool_decide (c = "."%char) then String.rev label :: labels r EmptyString
      else labels r (String c label)
  | EmptyString => [String.rev label]
  end.

Definition nonempty (s : string) : bool :=
  match s with EmptyString => false | _ => true end.

Fixpoint all_digits (s : string) : bool :=
  match s with
  | String c r =>
      let n := nat_of_ascii c in
      ((48 <=? n) && (n <=? 57))%nat && all_digits r
  | EmptyString => true
  end.

(** A dotted IPv4 address, or an address in brackets: such a host has no
    domain. *)
Definition is_ip (host : string) (ls : list string) : bool :=
  match host with
  | String "["%char _ => true
  | _ => bool_decide (length ls = 4%nat)
         && forallb (λ l, nonempty l && all_digits l) ls
  end.

(** The registrable domain when the public suffix is the last label: the
    last two labels of the host name. *)
Definition domain (url : string) : option string :=
  let host := hostname url in
  let ls := labels host EmptyString in
  if is_ip host ls then None
  else
    match reverse ls with
    | suffix :: name :: _ =>
        if nonempty suffix && nonempty name
        then Some (name +:+ String "."%char suffix)
        else None
    | _ => None
    end.

Definition upper (c : ascii) : ascii :=
  let n := nat_of_ascii c in
  if ((97 <=? n) && (n <=? 122))%nat then ascii_of_nat (n - 32) else c.

(** Modelled from the spec: [capitalizeFirstLetter] of [~/lib/utils] is
    not among the sources; the spec calls its result the capitalized
    domain. *)
Definition capitalize (s : string) : string :=
  match s with
  | String c r => String (upper c) r
  | EmptyString => EmptyString
  end.

#[global] Instance lib : DomainLib :=
  {| parse_domain := domain; capitalizeFirstLetter := capitalize |}.
End Tldts.

(** ** Predicates on states and actions, and the scenarios *)

(** An action that leaves the subscription state as it is. *)
Definition preserves_store {A} (m : Action A) : Prop :=
  ∀ w, store (exec m w) = store w.

(** Every feed id in a bucket has an entry in [data] whose view is the key
    of the bucket. *)
Definition bucket_sound (st : SubscriptionState) : Prop :=
  ∀ v id, id ∈ feedIdByView st v →
          ∃ s, data st !! id = Some s ∧ view s = v.

(** A feed id is in one bucket only. *)
Definition one_bucket (st : SubscriptionState) : Prop :=
  ∀ v v' id, id ∈ feedIdByView st v → id ∈ feedIdByView st v' → v = v'.

(** The invariant of the data model. *)
Definition Inv (st : SubscriptionState) : Prop :=
  bucket_sound st ∧ one_bucket st.

(** The buckets are exactly the feed ids of [data], by view. *)
Definition buckets_exact (st : SubscriptionState) : Prop :=
  ∀ v id, id ∈ feedIdByView st v ↔
          ∃ s, data st !! id = Some s ∧ view s = v.

(** The subscriptions of an [upsertMany] agree with the buckets and with
    one another on the view of every feed id. *)
Definition upsert_agrees (subscriptions : list SubscriptionFlatModel)
    (st : SubscriptionState) : Prop :=
  (∀ s v, s ∈ subscriptions → feedId s ∈ feedIdByView st v → view s = v) ∧
  (∀ s s', s ∈ subscriptions → s' ∈ subscriptions →
           feedId s = feedId s' → view s = view s').

(** The [defaultCategory] that the specification gives a fetched
    subscription without a category: the capitalized domain of the site URL
    of its feed, and the feed id when there is no site URL or no domain. *)
Definition spec_defaultCategory `{DomainLib} (s : SubscriptionModel) : string :=
  match sub_feeds s ≫= siteUrl with
  | Some (String _ _ as url) =>
      match parse_domain url with
      | Some (String _ _ as domain) => capitalizeFirstLetter domain
      | _ => sub_feedId s
      end
  | _ => sub_feedId s
  end.

(** The subscription of the scenario of the specification. *)
Definition scenario_subscription : SubscriptionModel :=
  {| sub_feedId := "f1"; sub_view := Articles; sub_category := None;
     sub_feeds :=
       Some {| feed_id := "f1"; siteUrl := Some "https://blog.example.com" |} |}.

(** A subscription without a category and without a feeds record. *)
Definition bare_subscription : SubscriptionModel :=
  {| sub_feedId := "f2"; sub_view := Videos; sub_category := None;
     sub_feeds := None |}.

(** The world after the scenario subscription was fetched: [f1] in
    Articles. *)
Definition scenario_world : World :=
  exec (fetchByView None (Fulfilled [scenario_subscription])) initialWorld.

(** How many times a feed id is in a bucket. *)
Definition occurrences (id : string) (l : list string) : nat :=
  length (filter (λ x, x = id) l).

(** A subscription in the category Tech whose feed has no site URL. *)
Definition tech_subscription : SubscriptionModel :=
  {| sub_feedId := "f3"; sub_view := Articles; sub_category := Some "Tech";
     sub_feeds := Some {| feed_id := "f3"; siteUrl := None |} |}.

(** [f1] in Articles and [f2] in Videos. *)
Definition two_feeds_world : World :=
  exec (fetchByView None (Fulfilled [scenario_subscription; bare_subscription]))
       initialWorld.

(** [f1] upserted a second time: the Articles bucket holds it twice. *)
Definition doubled_world : World :=
  exec (upsertMany [morphSubscription scenario_subscription]) scenario_world.

(** [f1], and [f3] in the category Tech with a feed that has no site URL. *)
Definition tech_world : World :=
  exec (fetchByView None (Fulfilled [scenario_subscription; tech_subscription]))
       initialWorld.

(** A check of [bucket_sound] that runs. *)
Definition bucket_soundb (st : SubscriptionState) : bool :=
  forallb (λ v,
    forallb (λ id, match data st !! id with
                   | Some s => bool_decide (view s = v)
                   | None => false
                   end) (feedIdByView st v)) all_views.

(** [f1] as the server returns it after it was moved to Videos. *)
Definition moved_subscription : SubscriptionModel :=
  {| sub_feedId := "f1"; sub_view := Videos; sub_category := None;
     sub_feeds :=
       Some {| feed_id := "f1"; siteUrl := Some "https://blog.example.com" |} |}.

(** ** The rest of the store, and the media component *)

(** [getSubscriptionByFeedId]. *)
Definition getSubscriptionByFeedId (id : string)
    : Action (option SubscriptionFlatModel) :=
  state ← get; mret (data state !! id).

(** No bucket holds a feed id twice. *)
Definition once_in_bucket (st : SubscriptionState) : Prop :=
  ∀ v, NoDup (feedIdByView st v).

(** The calls that one round of the loops of [markReadByView] and
    [markReadByFeedIds] makes. *)
Definition markRead_calls (filter : option MarkReadFilter) (id : string)
    : list Call :=
  (if negb (bool_decide (is_Some filter))
   then [feedUnreadActions_updateByFeedId id 0] else [])
  ++ [entryActions_patchManyByFeedId id filter].

(** A subscription in the category Tech whose feed has a site URL in which
    [parse] finds no domain. *)
Definition local_subscription : SubscriptionModel :=
  {| sub_feedId := "f4"; sub_view := Pictures; sub_category := Some "Tech";
     sub_feeds := Some {| feed_id := "f4"; siteUrl := Some "http://localhost" |} |}.

(** [f1] in Articles, [f3] in Articles and [f4] in Pictures, the last two
    in the category Tech. *)
Definition local_world : World :=
  exec (fetchByView None
          (Fulfilled [scenario_subscription; tech_subscription; local_subscription]))
       initialWorld.

(** [f1] in the Articles bucket and in the Videos bucket. *)
Definition broken_world : World :=
  exec (upsertMany [morphSubscription moved_subscription]) scenario_world.

(** The component [Media]: its state, what [MediaImpl] sets up when it is
    mounted, its error handler and what it renders. [Media] gives
    [MediaImpl] the key [props.src], so the state is set up again whenever
    the source changes. *)
Module Media.
Inductive MediaType : Set := photo | video.

Inductive LoadState : Set := loading | loaded | error.

Record Proxy : Set := mkProxy { width : Z; height : Z }.

(** The props that the modelled functions read. *)
Record Props : Set := mkProps {
  src : option string;
  type : option MediaType;
  proxy : option Proxy;
  showFallback : bool;
}.

(** The three [useState] cells. *)
Record State : Set := mkState {
  hidden : bool;
  imgSrc : option string;
  mediaLoadState : LoadState;
}.

#[global] Instance LoadState_eq_dec : EqDecision LoadState.
Proof. solve_decision. Defined.

(** [getImageProxyUrl] of [~/lib/img-proxy]. *)
Class ImgProxy : Type :=
  getImageProxyUrl : string → Z → Z → string.

(** The initial values of the [useState] cells; [failedList] is the set of
    the module. *)
Definition mount `{ImgProxy} (props : Props) (failedList : gset (option string))
    : State :=
  {| hidden := negb (truthy (src props));
     imgSrc :=
       match proxy props, src props with
       | Some p, Some url =>
           if truthy (Some url) && negb (bool_decide (Some url ∈ failedList))
           then Some (getImageProxyUrl url (width p) (height p))
           else src props
       | _, _ => src props
       end;
     mediaLoadState := loading |}.

(** What [errorHandle] leaves: the state, [failedList], and whether
    [props.onError] was called. *)
Record Handled : Type := mkHandled {
  state : State;
  failed : gset (option string);
  onError : bool;
}.

Definition errorHandle (props : Props) (st : State)
    (failedList : gset (option string)) : Handled :=
  if bool_decide (imgSrc st ≠ src props)
  then {| state := {| hidden := hidden st; imgSrc := src props;
                      mediaLoadState := error |};
          failed := {[ src props ]} ∪ failedList;
          onError := false |}
  else {| state := {| hidden := true; imgSrc := imgSrc st;
                      mediaLoadState := error |};
          failed := failedList;
          onError := true |}.

(** [InnerContent]. *)
Inductive Inner : Set :=
  | Img (imgSrc : option string) (opaque : bool)
  | VideoPreview (src : option string).

(** What [MediaImpl] returns: nothing, [FallbackMedia], or the span with
    its [hidden] class and its [data-state]. *)
Inductive View : Set :=
  | RenderNull
  | RenderFallback
  | RenderSpan (hiddenClass : bool) (dataState : option LoadState) (inner : Inner).

Definition render (props : Props) (st : State) : View :=
  match type props with
  | None => RenderNull
  | Some t =>
      if negb (truthy (src props)) then RenderNull
      else if hidden st && showFallback props then RenderFallback
      else
        RenderSpan (hidden st)
          (match t with video => None | photo => Some (mediaLoadState st) end)
          (match t with
           | photo => Img (imgSrc st) (bool_decide (mediaLoadState st = loaded))
           | video => VideoPreview (src props)
           end)
  end.

(** An image proxy for the scenarios. *)
Definition scenario_proxy : ImgProxy :=
  λ url w h, "https://proxy.example/" +:+ url.

Definition scenario_props : Props :=
  {| src := Some "https://a.example/p.png"; type := Some photo;
     proxy := Some {| width := 100; height := 100 |}; showFallback := true |}.
End Media.

(** * Properties *)

Lemma all_views_complete (v : FeedViewType) : v ∈ all_views.
Proof. unfold all_views. destruct v; set_solver. Qed.

(** ** Arrays: [indexOf] and [splice] *)

Lemma indexOf_not_in (x : string) (l : list string) :
  x ∉ l → indexOf x l = -1.
Proof.
  induction l as [|y l IH]; simpl; [done|].
  intros Hx. apply not_elem_of_cons in Hx as [Hne Hl].
  case_decide; [congruence|]. rewrite (IH Hl). done.
Qed.

Lemma indexOf_in (x : string) (l : list string) :
  x ∈ l → 0 ≤ indexOf x l.
Proof.
  induction l as [|y l IH]; simpl; [by intros ?%elem_of_nil|].
  intros Hx. case_decide; [lia|].
  apply elem_of_cons in Hx as [->|Hl]; [done|].
  specialize (IH Hl). destruct (Z.ltb_spec (indexOf x l) 0); lia.
Qed.

Lemma splice1_delete (start : Z) (l : list string) :
  splice1 start l =
  delete (Z.to_nat (if start <? 0
                    then Z.max (Z.of_nat (length l) + start) 0
                    else Z.min start (Z.of_nat (length l)))) l.
Proof. unfold splice1. by rewrite delete_take_drop. Qed.

Lemma splice1_sublist (start : Z) (l : list string) :
  splice1 start l `sublist_of` l.
Proof. rewrite splice1_delete. apply sublist_delete. Qed.

Lemma splice1_cons (i : Z) (y : string) (l : list string) :
  0 ≤ i → splice1 (i + 1) (y :: l) = y :: splice1 i l.
Proof.
  intros Hi. unfold splice1.
  destruct (Z.ltb_spec (i + 1) 0); [lia|].
  destruct (Z.ltb_spec i 0); [lia|].
  replace (Z.to_nat (Z.min (i + 1) (Z.of_nat (length (y :: l)))))
    with (S (Z.to_nat (Z.min i (Z.of_nat (length l)))))
    by (simpl length; lia).
  done.
Qed.

(** When the element is there, [splice] at its [indexOf] removes its first
    occurrence. *)
Lemma splice_indexOf_in (x : string) (l : list string) :
  x ∈ l → splice_indexOf x l = remove_first x l.
Proof.
  unfold splice_indexOf.
  induction l as [|y l IH]; simpl; [by intros ?%elem_of_nil|].
  intros Hx. case_decide as Hy.
  - unfold splice1. simpl. by rewrite drop_0.
  - apply elem_of_cons in Hx as [->|Hl]; [done|].
    pose proof (indexOf_in _ _ Hl) as Hge.
    destruct (Z.ltb_spec (indexOf x l) 0); [lia|].
    rewrite splice1_cons by done. by rewrite IH.
Qed.

(** When the element is not there, [indexOf] is [-1] and [splice] removes
    the last element of the array. *)
Lemma splice_indexOf_not_in (x : string) (l : list string) :
  x ∉ l → splice_indexOf x l = removelast l.
Proof.
  intros Hx. unfold splice_indexOf. rewrite (indexOf_not_in _ _ Hx).
  rewrite removelast_firstn_len. unfold splice1.
  change (-1 <? 0) with true. cbv iota.
  destruct l as [|y l]; [done|].
  replace (Z.to_nat (Z.max (Z.of_nat (length (y :: l)) + -1) 0))
    with (length l) by (simpl length; lia).
  cbn [length Nat.pred].
  rewrite (drop_ge (y :: l)) by (simpl; lia).
  by rewrite app_nil_r.
Qed.

Lemma splice_indexOf_sublist (x : string) (l : list string) :
  splice_indexOf x l `sublist_of` l.
Proof. apply splice1_sublist. Qed.

Lemma splice_indexOf_elem_of (x y : string) (l : list string) :
  y ∈ splice_indexOf x l → y ∈ l.
Proof.
  intros Hin. eapply elem_of_submseteq; [exact Hin|].
  apply sublist_submseteq, splice_indexOf_sublist.
Qed.

Lemma set_bucket_eq v ids buckets : set_bucket v ids buckets v = ids.
Proof. unfold set_bucket. by case_decide. Qed.

Lemma set_bucket_ne v v' ids buckets :
  v' ≠ v → set_bucket v ids buckets v' = buckets v'.
Proof. unfold set_bucket. by case_decide. Qed.

(** ** What [upsertMany] leaves in the state *)

(** Every upserted subscription is appended to the bucket of its view, in
    the order of the call. *)
Lemma upsertMany_produce_buckets (subscriptions : list SubscriptionFlatModel)
    (st : SubscriptionState) (v : FeedViewType) :
  feedIdByView (upsertMany_produce subscriptions st) v =
  feedIdByView st v ++ (feedId <$> filter (λ s, view s = v) subscriptions).
Proof.
  unfold upsertMany_produce. revert st.
  induction subscriptions as [|s l IH]; intros st; simpl.
  - by rewrite app_nil_r.
  - rewrite IH. simpl. unfold set_bucket, push. rewrite filter_cons.
    destruct (decide (view s = v)) as [->|Hne].
    + rewrite decide_True by done. rewrite fmap_cons.
      by rewrite <- app_assoc.
    + rewrite decide_False by done. done.
Qed.

Lemma upsertMany_produce_lookup_not_in (subscriptions : list SubscriptionFlatModel)
    (st : SubscriptionState) (id : string) :
  id ∉ feedId <$> subscriptions →
  data (upsertMany_produce subscriptions st) !! id = data st !! id.
Proof.
  unfold upsertMany_produce. revert st.
  induction subscriptions as [|s l IH]; intros st Hid; simpl; [done|].
  rewrite fmap_cons in Hid. apply not_elem_of_cons in Hid as [Hne Hl].
  rewrite IH by done. simpl. by rewrite lookup_insert_ne.
Qed.

(** The entry of an upserted feed id is one of the upserted subscriptions
    with that feed id. *)
Lemma upsertMany_produce_lookup_in (subscriptions : list SubscriptionFlatModel)
    (st : SubscriptionState) (id : string) :
  id ∈ feedId <$> subscriptions →
  ∃ s, s ∈ subscriptions ∧ feedId s = id ∧
       data (upsertMany_produce subscriptions st) !! id = Some s.
Proof.
  unfold upsertMany_produce. revert st.
  induction subscriptions as [|s l IH]; intros st Hid; simpl.
  - by apply elem_of_nil in Hid.
  - destruct (decide (id ∈ feedId <$> l)) as [Hl|Hl].
    + destruct (IH (upsert_one st s) Hl) as (s' & Hs' & Hf & Hlook).
      exists s'. split; [by apply elem_of_cons; right|done].
    + rewrite fmap_cons in Hid. apply elem_of_cons in Hid as [->|Hid]; [|done].
      exists s. split; [by apply elem_of_cons; left|]. split; [done|].
      pose proof (upsertMany_produce_lookup_not_in l (upsert_one st s) _ Hl) as Hk.
      unfold upsertMany_produce in Hk. rewrite Hk. simpl.
      by rewrite lookup_insert_eq.
Qed.

(** The last subscription upserted under a feed id is the one stored. *)
Lemma upsertMany_produce_lookup_last (pre post : list SubscriptionFlatModel)
    (s : SubscriptionFlatModel) (st : SubscriptionState) :
  feedId s ∉ feedId <$> post →
  data (upsertMany_produce (pre ++ s :: post) st) !! feedId s = Some s.
Proof.
  intros Hpost. unfold upsertMany_produce. rewrite foldl_app. simpl.
  pose proof (upsertMany_produce_lookup_not_in post
                (upsert_one (foldl upsert_one st pre) s) _ Hpost) as Hk.
  unfold upsertMany_produce in Hk. rewrite Hk. simpl.
  by rewrite lookup_insert_eq.
Qed.

(** ** Actions that leave the store alone *)

Lemma preserves_store_ret {A} (a : A) : preserves_store (mret a).
Proof. done. Qed.

Lemma preserves_store_call (c : Call) : preserves_store (call c).
Proof. done. Qed.

Lemma preserves_store_remote {A} (r : Outcome A) : preserves_store (remote r).
Proof. done. Qed.

Lemma preserves_store_bind {A B} (m : Action A) (f : A → Action B) :
  preserves_store m → (∀ a, preserves_store (f a)) → preserves_store (m ≫= f).
Proof.
  intros Hm Hf w. unfold exec, mbind, Action_bind.
  specialize (Hm w). unfold exec in Hm.
  destruct (m w) as [[a|] w']; simpl in *; [|done].
  rewrite <- Hm. apply (Hf a w').
Qed.

Lemma preserves_store_when (c : bool) (m : Action unit) :
  preserves_store m → preserves_store (when c m).
Proof. destruct c; [done|]. intros _. apply preserves_store_ret. Qed.

Lemma preserves_store_for_each {A} (l : list A) (body : A → Action unit) :
  (∀ x, preserves_store (body x)) → preserves_store (for_each l body).
Proof.
  intros Hbody. induction l as [|x l IH]; simpl.
  - apply preserves_store_ret.
  - apply preserves_store_bind; [apply Hbody|]. intros _. apply IH.
Qed.

Lemma preserves_store_doMutationAndTransaction {A B} (mutation : Action A)
    (transaction : Action B) options :
  preserves_store mutation → preserves_store transaction →
  preserves_store (doMutationAndTransaction mutation transaction options).
Proof.
  intros Hm Ht w. unfold exec, doMutationAndTransaction.
  specialize (Hm w). unfold exec in Hm.
  destruct (mutation w) as [[a|] w']; simpl in *.
  - rewrite <- Hm. apply (Ht w').
  - destruct (doTranscationWhenMutationFail _); simpl; [|done].
    rewrite <- Hm. apply (Ht w').
Qed.

Create HintDb store.
#[local] Hint Resolve preserves_store_ret preserves_store_call
  preserves_store_remote preserves_store_when preserves_store_for_each
  preserves_store_doMutationAndTransaction : store.

(** A rejected mutation without [doTranscationWhenMutationFail] leaves the
    world as it was. *)
Lemma doMutationAndTransaction_rejected {A B} (transaction : Action B)
    (options : option MutationAndTransactionOptions) (w : World) :
  doTranscationWhenMutationFail (default defaultOptions options) = false →
  doMutationAndTransaction (remote (@Rejected A)) transaction options w
  = (Rejected, w).
Proof. intros Hopt. unfold doMutationAndTransaction. simpl. by rewrite Hopt. Qed.

(** The requests of [changeCategoryView], awaited together. *)
Lemma for_each_remote_fulfilled (ids : list string) (patch : string → Outcome unit)
    (w : World) :
  (∀ id, id ∈ ids → patch id = Fulfilled ()) →
  for_each ids (λ id, remote (patch id)) w = (Fulfilled (), w).
Proof.
  induction ids as [|id ids IH]; intros Hok; simpl; [done|].
  unfold mbind, Action_bind, remote at 1.
  rewrite (Hok id) by (apply elem_of_cons; by left).
  apply IH. intros id' Hin. apply Hok, elem_of_cons. by right.
Qed.

Lemma for_each_remote_rejected (ids : list string) (patch : string → Outcome unit)
    (w : World) :
  (∃ id, id ∈ ids ∧ patch id = Rejected) →
  for_each ids (λ id, remote (patch id)) w = (Rejected, w).
Proof.
  induction ids as [|id ids IH]; intros (bad & Hin & Hbad); simpl.
  - by apply elem_of_nil in Hin.
  - unfold mbind, Action_bind, remote at 1.
    destruct (patch id) as [[]|] eqn:Hid; [|done].
    apply IH. exists bad. split; [|done].
    apply elem_of_cons in Hin as [->|Hin]; [congruence|done].
Qed.

(** ** The store after each method *)

Section StoreAfter.
Context `{DomainLib}.

Lemma store_upsertMany subscriptions w :
  store (exec (upsertMany subscriptions) w)
  = upsertMany_produce subscriptions (store w).
Proof. done. Qed.

Lemma store_fetchByView view res w :
  store (exec (fetchByView view (Fulfilled res)) w)
  = upsertMany_produce (morphResponseData res) (reset_buckets view (store w)).
Proof. done. Qed.

Lemma exec_fetchByView_rejected view w :
  exec (fetchByView view Rejected) w = w.
Proof. done. Qed.

Lemma preserves_store_markRead_each filter id :
  preserves_store (markRead_each filter id).
Proof.
  unfold markRead_each. apply preserves_store_bind; auto with store.
Qed.

Lemma store_markReadByView view filter response w :
  store (exec (markReadByView view filter response) w) = store w.
Proof.
  apply (preserves_store_doMutationAndTransaction (remote response));
    [apply preserves_store_remote|].
  apply preserves_store_bind; [done|]. intros st.
  apply preserves_store_bind; auto with store.
  apply preserves_store_for_each. apply preserves_store_markRead_each.
Qed.

Lemma store_markReadByFeedIds feedIds view filter response w :
  store (exec (markReadByFeedIds feedIds view filter response) w) = store w.
Proof.
  apply (preserves_store_doMutationAndTransaction (remote response));
    [apply preserves_store_remote|].
  apply preserves_store_bind; auto with store.
  apply preserves_store_for_each. apply preserves_store_markRead_each.
Qed.

Lemma store_clear w : store (exec clear w) = initialState.
Proof. done. Qed.

Lemma store_deleteCategory ids w :
  store (exec (deleteCategory ids (Fulfilled ())) w)
  = deleteCategory_produce (feedStore w) ids (store w).
Proof.
  unfold exec, deleteCategory, doMutationAndTransaction.
  unfold mbind, Action_bind, set, get.
  cbn -[for_each deleteCategory_produce].
  match goal with
  | |- store (for_each ids ?body ?w').2 = _ =>
      apply (preserves_store_for_each ids body)
  end.
  intros id. destruct (_ !! id); auto with store.
Qed.

Lemma exec_deleteCategory_rejected ids w :
  exec (deleteCategory ids Rejected) w = w.
Proof. done. Qed.

Lemma store_unfollow id response w :
  store (exec (unfollow id response) w) = unfollow_produce id (store w).
Proof. by destruct response as [[]|]. Qed.

Lemma store_renameCategory lastCategory newCategory response w :
  store (exec (renameCategory lastCategory newCategory response) w)
  = renameCategory_produce (subscriptionIds lastCategory (store w))
      newCategory (store w).
Proof. by destruct response as [[]|]. Qed.

Lemma store_changeCategoryView_fulfilled c currentView changeToView patch w :
  (∀ id, id ∈ folderFeedIds c currentView (store w) → patch id = Fulfilled ()) →
  store (exec (changeCategoryView c currentView changeToView patch) w)
  = changeCategoryView_produce (folderFeedIds c currentView (store w))
      currentView changeToView (store w).
Proof.
  intros Hok. unfold exec, changeCategoryView.
  unfold mbind at 1, Action_bind at 1. simpl.
  unfold mbind at 1, Action_bind at 1.
  rewrite for_each_remote_fulfilled by done.
  unfold mbind at 1, Action_bind at 1. simpl.
  set (body := λ id : string, call _).
  pose proof (preserves_store_for_each
                (folderFeedIds c currentView (store w)) body) as Hfe.
  unfold preserves_store, exec in Hfe. rewrite Hfe; [done|].
  intros id. apply preserves_store_call.
Qed.

Lemma exec_changeCategoryView_rejected c currentView changeToView patch w :
  (∃ id, id ∈ folderFeedIds c currentView (store w) ∧ patch id = Rejected) →
  exec (changeCategoryView c currentView changeToView patch) w = w.
Proof.
  intros Hbad. unfold exec, changeCategoryView.
  unfold mbind at 1, Action_bind at 1. simpl.
  unfold mbind at 1, Action_bind at 1.
  by rewrite for_each_remote_rejected.
Qed.
End StoreAfter.

(** ** The recipes, read as equations *)

Lemma unfollow_produce_bucket (id : string) (st : SubscriptionState)
    (v : FeedViewType) :
  feedIdByView (unfollow_produce id st) v = splice_indexOf id (feedIdByView st v).
Proof. by destruct v. Qed.

Lemma in_category_spec (c : string) (s : SubscriptionFlatModel) :
  in_category c s ↔ category s = Some c ∨ defaultCategory s = Some c.
Proof.
  unfold in_category, strict_eq. rewrite orb_True.
  by rewrite !bool_decide_spec.
Qed.

Lemma in_folder_spec (c : string) (st : SubscriptionState) (id : string) :
  in_folder c st id ↔
  ∃ s, data st !! id = Some s ∧ (category s = Some c ∨ defaultCategory s = Some c).
Proof.
  unfold in_folder. destruct (data st !! id) as [s|].
  - rewrite in_category_spec. split.
    + intros Hc. by exists s.
    + by intros (s' & [= <-] & Hc).
  - split; [done|]. by intros (s' & [=] & _).
Qed.

Lemma elem_of_subscriptionIds (c : string) (st : SubscriptionState) (id : string) :
  id ∈ subscriptionIds c st ↔
  ∃ s, data st !! id = Some s ∧ (category s = Some c ∨ defaultCategory s = Some c).
Proof.
  unfold subscriptionIds. rewrite list_elem_of_fmap. split.
  - intros ([k s] & -> & Hin). apply list_elem_of_filter in Hin as [Hc Hin].
    apply elem_of_map_to_list in Hin. simpl in *.
    exists s. split; [done|]. by apply in_category_spec.
  - intros (s & Hs & Hc). exists (id, s). split; [done|].
    apply list_elem_of_filter. split.
    + simpl. by apply in_category_spec.
    + by apply elem_of_map_to_list.
Qed.

(** A loop of [alter]s with a function that does nothing the second
    time. *)
Lemma foldl_alter_lookup {A} (f : A → A) (ids : list string)
    (d : gmap string A) (k : string) :
  (∀ x, f (f x) = f x) →
  foldl (λ d id, alter f id d) d ids !! k
  = if decide (k ∈ ids) then f <$> d !! k else d !! k.
Proof.
  intros Hf. revert d. induction ids as [|id ids IH]; intros d.
  - cbn [foldl]. destruct (decide (k ∈ [])) as [Hk|_]; [|done].
    by apply elem_of_nil in Hk.
  - cbn [foldl]. rewrite IH. destruct (decide (id = k)) as [->|Hne].
    + rewrite lookup_alter_eq.
      destruct (decide (k ∈ k :: ids)) as [_|Hk].
      * destruct (decide (k ∈ ids)); [|done].
        destruct (d !! k); simpl; [|done]. by rewrite Hf.
      * exfalso. apply Hk, elem_of_cons. by left.
    + rewrite lookup_alter_ne by done.
      destruct (decide (k ∈ ids)) as [Hin|Hin];
        destruct (decide (k ∈ id :: ids)) as [Hin'|Hin']; try done.
      * exfalso. apply Hin', elem_of_cons. by right.
      * apply elem_of_cons in Hin' as [?|?]; [congruence|done].
Qed.

Lemma renameCategory_produce_lookup (ids : list string) (newCategory : string)
    (st : SubscriptionState) (k : string) :
  data (renameCategory_produce ids newCategory st) !! k
  = if decide (k ∈ ids) then set_category newCategory <$> data st !! k
    else data st !! k.
Proof. apply foldl_alter_lookup. done. Qed.

Lemma changeCategoryView_produce_data (ids : list string)
    (currentView changeToView : FeedViewType) (st : SubscriptionState) :
  data (changeCategoryView_produce ids currentView changeToView st)
  = foldl (λ d id, alter (set_view changeToView) id d) (data st) ids.
Proof.
  unfold changeCategoryView_produce. revert st.
  induction ids as [|id ids IH]; intros st; simpl; [done|]. by rewrite IH.
Qed.

Lemma changeCategoryView_produce_lookup (ids : list string)
    (currentView changeToView : FeedViewType) (st : SubscriptionState)
    (k : string) :
  data (changeCategoryView_produce ids currentView changeToView st) !! k
  = if decide (k ∈ ids) then set_view changeToView <$> data st !! k
    else data st !! k.
Proof. rewrite changeCategoryView_produce_data. by apply foldl_alter_lookup. Qed.

(** The buckets through the loop of [changeCategoryView], when the two
    views differ: the current one is spliced, the other one grows. *)
Lemma changeCategoryView_produce_buckets_ne (ids : list string)
    (currentView changeToView : FeedViewType) (st : SubscriptionState) :
  currentView ≠ changeToView →
  let st' := changeCategoryView_produce ids currentView changeToView st in
  feedIdByView st' currentView
    = foldl (λ l id, splice_indexOf id l) (feedIdByView st currentView) ids
  ∧ feedIdByView st' changeToView = feedIdByView st changeToView ++ ids
  ∧ ∀ v, v ≠ currentView → v ≠ changeToView →
         feedIdByView st' v = feedIdByView st v.
Proof.
  intros Hne. unfold changeCategoryView_produce. revert st.
  induction ids as [|id ids IH]; intros st; simpl.
  - by rewrite app_nil_r.
  - destruct (IH (move_one currentView changeToView st id)) as (IH1 & IH2 & IH3).
    rewrite IH1, IH2. simpl. split_and!.
    + rewrite set_bucket_ne, set_bucket_eq by done. done.
    + rewrite set_bucket_eq, set_bucket_ne by done.
      unfold push. by rewrite <- app_assoc.
    + intros v Hv1 Hv2. rewrite IH3 by done. simpl.
      by rewrite !set_bucket_ne.
Qed.

(** The same when the two views are one: the one array is spliced and
    pushed to. *)
Lemma changeCategoryView_produce_buckets_eq (ids : list string)
    (currentView : FeedViewType) (st : SubscriptionState) :
  let st' := changeCategoryView_produce ids currentView currentView st in
  feedIdByView st' currentView
    = foldl (λ l id, push id (splice_indexOf id l)) (feedIdByView st currentView) ids
  ∧ ∀ v, v ≠ currentView → feedIdByView st' v = feedIdByView st v.
Proof.
  unfold changeCategoryView_produce. revert st.
  induction ids as [|id ids IH]; intros st; simpl; [done|].
  destruct (IH (move_one currentView currentView st id)) as (IH1 & IH2).
  rewrite IH1. simpl. split.
  - by rewrite !set_bucket_eq.
  - intros v Hv. rewrite IH2 by done. simpl. by rewrite !set_bucket_ne.
Qed.

Lemma remove_first_app (x : string) (pre r : list string) :
  x ∉ pre → remove_first x (pre ++ x :: r) = pre ++ r.
Proof.
  induction pre as [|y pre IH]; simpl; intros Hx.
  - by rewrite decide_True.
  - apply not_elem_of_cons in Hx as [Hne Hpre].
    rewrite decide_False by congruence. by rewrite IH.
Qed.

Lemma splice_indexOf_app (x : string) (pre r : list string) :
  x ∉ pre → splice_indexOf x (pre ++ x :: r) = pre ++ r.
Proof.
  intros Hx. rewrite splice_indexOf_in.
  - by apply remove_first_app.
  - apply elem_of_app. right. apply elem_of_cons. by left.
Qed.

Section Filtered.
Context (P : string → Prop) `{!∀ x, Decision (P x)}.

(** Splicing out, one by one, the elements of a list that satisfy [P]
    leaves those that do not. *)
Lemma foldl_splice_filter (pre l : list string) :
  (∀ x, x ∈ pre → ¬ P x) →
  foldl (λ l id, splice_indexOf id l) (pre ++ l) (filter P l)
  = pre ++ filter (λ x, ¬ P x) l.
Proof.
  revert pre. induction l as [|x l IH]; intros pre Hpre; [done|].
  rewrite !filter_cons. destruct (decide (P x)) as [HP|HP].
  - rewrite decide_False by tauto. simpl.
    rewrite splice_indexOf_app; [by apply IH|].
    intros Hin. by apply (Hpre x).
  - rewrite decide_True by done.
    rewrite (cons_middle x pre l), app_assoc, IH.
    + by rewrite <- app_assoc.
    + intros y [Hy|Hy]%elem_of_app; [by apply Hpre|].
      apply list_elem_of_singleton in Hy. by subst.
Qed.

(** Splicing them out and pushing them back moves them to the end. *)
Lemma foldl_splice_push_filter (pre l post : list string) :
  (∀ x, x ∈ pre → ¬ P x) →
  foldl (λ l id, push id (splice_indexOf id l)) (pre ++ l ++ post) (filter P l)
  = pre ++ filter (λ x, ¬ P x) l ++ post ++ filter P l.
Proof.
  revert pre post. induction l as [|x l IH]; intros pre post Hpre.
  - simpl. by rewrite app_nil_r.
  - rewrite !filter_cons. destruct (decide (P x)) as [HP|HP].
    + rewrite decide_False by tauto. simpl.
      rewrite splice_indexOf_app by (intros Hin; by apply (Hpre x)).
      unfold push at 2. rewrite <- !app_assoc.
      rewrite (IH pre (post ++ [x])) by done.
      by rewrite <- !app_assoc.
    + rewrite decide_True by done.
      change ((x :: l) ++ post) with ([x] ++ l ++ post).
      rewrite app_assoc, IH.
      * by rewrite <- !app_assoc.
      * intros y [Hy|Hy]%elem_of_app; [by apply Hpre|].
        apply list_elem_of_singleton in Hy. by subst.
Qed.
End Filtered.

(** ** The invariant of the state *)

Lemma bucket_sound_one_bucket (st : SubscriptionState) :
  bucket_sound st → one_bucket st.
Proof.
  intros Hs v v' id Hv Hv'.
  destruct (Hs _ _ Hv) as (s & Hl & <-).
  destruct (Hs _ _ Hv') as (s' & Hl' & <-). congruence.
Qed.

Lemma bucket_sound_Inv (st : SubscriptionState) : bucket_sound st → Inv st.
Proof. intros Hs. split; [done|]. by apply bucket_sound_one_bucket. Qed.

Lemma Inv_initialState : Inv initialState.
Proof. apply bucket_sound_Inv. intros v id Hin. by apply elem_of_nil in Hin. Qed.

Lemma elem_of_upserted (subscriptions : list SubscriptionFlatModel)
    (v : FeedViewType) (id : string) :
  id ∈ feedId <$> filter (λ s, view s = v) subscriptions ↔
  ∃ s, s ∈ subscriptions ∧ feedId s = id ∧ view s = v.
Proof.
  rewrite list_elem_of_fmap. split.
  - intros (s & -> & [Hv Hin]%list_elem_of_filter). by exists s.
  - intros (s & Hin & <- & Hv). exists s. split; [done|].
    by apply list_elem_of_filter.
Qed.

Lemma upsertMany_produce_sound (subscriptions : list SubscriptionFlatModel)
    (st : SubscriptionState) :
  upsert_agrees subscriptions st → bucket_sound st →
  bucket_sound (upsertMany_produce subscriptions st).
Proof.
  intros [Hold Hnew] Hs v id. rewrite upsertMany_produce_buckets.
  intros [Hin|Hin]%elem_of_app.
  - destruct (decide (id ∈ feedId <$> subscriptions)) as [Hup|Hup].
    + destruct (upsertMany_produce_lookup_in _ st _ Hup) as (s & Hsin & Hid & Hl).
      exists s. split; [done|]. apply Hold; [done|]. by rewrite Hid.
    + rewrite upsertMany_produce_lookup_not_in by done. by apply Hs.
  - apply elem_of_upserted in Hin as (s & Hsin & Hid & Hv).
    assert (id ∈ feedId <$> subscriptions) as Hup.
    { apply list_elem_of_fmap. by exists s. }
    destruct (upsertMany_produce_lookup_in _ st _ Hup) as (s' & Hsin' & Hid' & Hl).
    exists s'. split; [done|]. rewrite <- Hv. apply Hnew; [done..|congruence].
Qed.

Lemma reset_buckets_sound (view : option FeedViewType) (st : SubscriptionState) :
  bucket_sound st → bucket_sound (reset_buckets view st).
Proof.
  intros Hs v id. destruct view as [v0|]; simpl.
  - unfold set_bucket. case_decide; [by intros ?%elem_of_nil|]. apply Hs.
  - by intros ?%elem_of_nil.
Qed.

(** ** [fetchByView] *)

Section FetchByView.
Context `{DomainLib}.

Lemma morphSubscription_feedId s : feedId (morphSubscription s) = sub_feedId s.
Proof.
  unfold morphSubscription.
  destruct (sub_feeds s) as [feeds|]; [|done].
  destruct (negb (truthy (sub_category s))); [|done].
  destruct (negb (truthy (siteUrl feeds))); [done|].
  destruct (siteUrl feeds ≫= parse_domain) as [d|]; [|done].
  by destruct (truthy (Some d)).
Qed.

Lemma morphSubscription_view s : view (morphSubscription s) = sub_view s.
Proof.
  unfold morphSubscription.
  destruct (sub_feeds s) as [feeds|]; [|done].
  destruct (negb (truthy (sub_category s))); [|done].
  destruct (negb (truthy (siteUrl feeds))); [done|].
  destruct (siteUrl feeds ≫= parse_domain) as [d|]; [|done].
  by destruct (truthy (Some d)).
Qed.

Lemma morphResponseData_feedIds res :
  feedId <$> morphResponseData res = sub_feedId <$> res.
Proof.
  unfold morphResponseData. induction res as [|s res IH]; [done|].
  cbn [map fmap list_fmap]. rewrite morphSubscription_feedId.
  f_equal. exact IH.
Qed.

Lemma elem_of_morphResponseData f res :
  f ∈ morphResponseData res ↔ ∃ s, s ∈ res ∧ f = morphSubscription s.
Proof.
  unfold morphResponseData. rewrite list_elem_of_In, in_map_iff.
  split; intros (s & H1 & H2).
  - exists s. by rewrite list_elem_of_In.
  - exists s. by rewrite <- list_elem_of_In.
Qed.

(** The subscription stored under a fetched feed id is the morphed form
    of the last record of the response with that feed id. *)
Lemma fetchByView_stores view w pre s post :
  sub_feedId s ∉ sub_feedId <$> post →
  data (store (exec (fetchByView view (Fulfilled (pre ++ s :: post))) w))
    !! sub_feedId s = Some (morphSubscription s).
Proof.
  intros Hpost. rewrite store_fetchByView.
  unfold morphResponseData. rewrite map_app. cbn [map].
  rewrite <- (morphSubscription_feedId s).
  apply upsertMany_produce_lookup_last.
  rewrite morphSubscription_feedId.
  change (map morphSubscription post) with (morphResponseData post).
  by rewrite morphResponseData_feedIds.
Qed.
End FetchByView.

Section FetchByViewClaims.
Context `{DomainLib}.

(** C1 (amended). When every feed id of [data] is among the fetched ones
    and the response gives no feed id two views, then after
    [fetchByView(undefined)] every bucket holds exactly the feed ids of
    [data] whose stored view is the key of the bucket. *)
Theorem fetchByView_all_buckets_exact (w : World) (res : list SubscriptionModel) :
  (∀ id, is_Some (data (store w) !! id) → id ∈ sub_feedId <$> res) →
  (∀ s s', s ∈ res → s' ∈ res →
           sub_feedId s = sub_feedId s' → sub_view s = sub_view s') →
  buckets_exact (store (exec (fetchByView None (Fulfilled res)) w)).
Proof.
  intros Hstale Hviews v id. rewrite store_fetchByView. split.
  - revert v id. apply upsertMany_produce_sound.
    + split.
      * intros s v _ Hin. by apply elem_of_nil in Hin.
      * intros f f' (s & Hs & ->)%elem_of_morphResponseData
          (s' & Hs' & ->)%elem_of_morphResponseData.
        rewrite !morphSubscription_feedId, !morphSubscription_view.
        by apply Hviews.
    + intros v id Hin. by apply elem_of_nil in Hin.
  - intros (f & Hl & Hv). rewrite upsertMany_produce_buckets.
    apply elem_of_app. right. apply elem_of_upserted.
    destruct (decide (id ∈ feedId <$> morphResponseData res)) as [Hup|Hup].
    + destruct (upsertMany_produce_lookup_in _
                  (reset_buckets None (store w)) _ Hup)
        as (f' & Hin & Hid & Hl').
      exists f'. split; [done|]. split; [done|]. congruence.
    + rewrite upsertMany_produce_lookup_not_in in Hl by done.
      exfalso. apply Hup. rewrite morphResponseData_feedIds.
      apply Hstale. by exists f.
Qed.

(** C10. A fetched subscription without a category and without a feeds
    record is passed on with no [defaultCategory], and that is how
    [fetchByView] stores it (the record stored under a feed id being the
    last one of the response with that feed id). *)
Theorem fetchByView_without_feeds_no_defaultCategory
    (view : option FeedViewType) (w : World)
    (pre post : list SubscriptionModel) (s : SubscriptionModel) :
  truthy (sub_category s) = false →
  sub_feeds s = None →
  defaultCategory (morphSubscription s) = None ∧
  (sub_feedId s ∉ sub_feedId <$> post →
   ∃ f, data (store (exec (fetchByView view (Fulfilled (pre ++ s :: post))) w))
          !! sub_feedId s = Some f
        ∧ defaultCategory f = None).
Proof.
  intros _ Hfeeds.
  assert (defaultCategory (morphSubscription s) = None) as Hnone.
  { unfold morphSubscription. by rewrite Hfeeds. }
  split; [done|]. intros Hpost.
  exists (morphSubscription s). split; [|done].
  by apply fetchByView_stores.
Qed.

Lemma morphSubscription_defaultCategory s feeds :
  truthy (sub_category s) = false →
  sub_feeds s = Some feeds →
  defaultCategory (morphSubscription s) = Some (spec_defaultCategory s).
Proof.
  intros Hcat Hfeeds. unfold morphSubscription, spec_defaultCategory.
  rewrite Hfeeds, Hcat. simpl.
  destruct (siteUrl feeds) as [[|c url]|]; simpl; [done| |done].
  by destruct (parse_domain (String c url)) as [[|c' d]|].
Qed.
End FetchByViewClaims.

(** C8 (amended). For a fetched subscription without a category that
    carries a feeds record, [fetchByView] stores the capitalized domain
    that [parse] finds in the site URL of the feed as [defaultCategory],
    and the feed id when the feed has no site URL or [parse] finds no
    domain. In the scenario of the specification the domain of
    [https://blog.example.com] is [example.com], and the stored
    [defaultCategory] is [Example.com]. *)
Theorem fetchByView_defaultCategory :
  (∀ (lib : DomainLib) (view : option FeedViewType) (w : World)
     (pre post : list SubscriptionModel) (s : SubscriptionModel)
     (feeds : FeedModel),
     truthy (sub_category s) = false →
     sub_feeds s = Some feeds →
     sub_feedId s ∉ sub_feedId <$> post →
     ∃ f, data (store (exec (fetchByView view (Fulfilled (pre ++ s :: post))) w))
            !! sub_feedId s = Some f
          ∧ defaultCategory f = Some (spec_defaultCategory s))
  ∧ data (store scenario_world) !! "f1"
    = Some {| feedId := "f1"; view := Articles; category := None;
              defaultCategory := Some "Example.com" |}.
Proof.
  split.
  - intros lib view w pre post s feeds Hcat Hfeeds Hpost.
    exists (morphSubscription s). split.
    + by apply fetchByView_stores.
    + by apply morphSubscription_defaultCategory with feeds.
  - vm_compute. reflexivity.
Qed.

Lemma fetchByView_defaultCategory_witness :
  ∃ f, data (store (exec (fetchByView None
                            (Fulfilled [bare_subscription; scenario_subscription]))
                      initialWorld)) !! "f1" = Some f
       ∧ defaultCategory f = Some "Example.com".
Proof.
  apply (proj1 fetchByView_defaultCategory Tldts.lib None initialWorld
           [bare_subscription] [] scenario_subscription
           {| feed_id := "f1"; siteUrl := Some "https://blog.example.com" |}).
  - reflexivity.
  - reflexivity.
  - apply not_elem_of_nil.
Defined.

(** C8, as the specification states it, fails for a subscription that has
    no feeds record: nothing is derived for it, not even the feed id. *)
Lemma fetchByView_without_feeds_no_fallback :
  ¬ (∀ s : SubscriptionModel,
       truthy (sub_category s) = false →
       ∃ f, data (store (exec (fetchByView None (Fulfilled [s])) initialWorld))
              !! sub_feedId s = Some f
            ∧ defaultCategory f = Some (spec_defaultCategory s)).
Proof.
  intros Hspec.
  destruct (Hspec bare_subscription eq_refl) as (f & Hf & Hd).
  rewrite (fetchByView_stores None initialWorld [] bare_subscription [])
    in Hf by apply not_elem_of_nil.
  injection Hf as <-. discriminate Hd.
Qed.

Lemma data_scenario_world :
  data (store scenario_world) = {[ "f1" := morphSubscription scenario_subscription ]}.
Proof. reflexivity. Qed.

Lemma fetchByView_all_buckets_exact_witness :
  buckets_exact
    (store (exec (fetchByView None
                    (Fulfilled [scenario_subscription; bare_subscription]))
              scenario_world)).
Proof.
  apply fetchByView_all_buckets_exact.
  - intros id [f Hf]. rewrite data_scenario_world in Hf.
    apply lookup_singleton_Some in Hf as [<- _].
    apply elem_of_cons. by left.
  - intros s s' Hs Hs' Hid.
    apply elem_of_cons in Hs as [->|Hs];
      [|apply list_elem_of_singleton in Hs as ->];
      (apply elem_of_cons in Hs' as [->|Hs'];
       [|apply list_elem_of_singleton in Hs' as ->]);
      first [reflexivity | discriminate Hid].
Defined.

(** C1, as the specification states it, fails: [fetchByView] empties the
    buckets but not [data], so a subscription that the response no longer
    lists stays in [data] and is in no bucket. *)
Lemma fetchByView_leaves_stale_data :
  ¬ (∀ (w : World) (res : list SubscriptionModel),
       buckets_exact (store (exec (fetchByView None (Fulfilled res)) w))).
Proof.
  intros Hspec.
  destruct (Hspec scenario_world [] Articles "f1") as [_ Hin].
  assert ("f1" ∈ @nil string) as Hnil; [|by apply elem_of_nil in Hnil].
  apply Hin. exists (morphSubscription scenario_subscription).
  split; reflexivity.
Qed.

(** A response that lists a feed id under two views leaves it in both
    buckets. *)
Example fetchByView_one_feed_two_views :
  let st' := store (exec (fetchByView None
                            (Fulfilled [scenario_subscription; moved_subscription]))
                      initialWorld) in
  feedIdByView st' Articles = ["f1"] ∧ feedIdByView st' Videos = ["f1"]
  ∧ view <$> data st' !! "f1" = Some Videos.
Proof. vm_compute. done. Qed.

Lemma fetchByView_without_feeds_no_defaultCategory_witness :
  defaultCategory (morphSubscription bare_subscription) = None ∧
  ∃ f, data (store (exec (fetchByView (Some Videos)
                            (Fulfilled [bare_subscription; scenario_subscription]))
                      scenario_world)) !! "f2" = Some f
       ∧ defaultCategory f = None.
Proof.
  destruct (fetchByView_without_feeds_no_defaultCategory (Some Videos)
              scenario_world [] [scenario_subscription] bare_subscription
              eq_refl eq_refl) as [Hmorph Hstored].
  split; [exact Hmorph|]. apply Hstored.
  intros Hin. apply list_elem_of_singleton in Hin. discriminate Hin.
Defined.

(** ** [unfollow] *)

Lemma occurrences_0 (id : string) (l : list string) :
  occurrences id l = 0%nat ↔ id ∉ l.
Proof.
  unfold occurrences. induction l as [|y l IH]; simpl.
  - split; [intros _; apply not_elem_of_nil|done].
  - rewrite filter_cons, not_elem_of_cons. case_decide as Hy; simpl.
    + split; [done|]. intros [Hne _]. congruence.
    + rewrite IH. split; [|tauto]. intros Hl. split; [congruence|done].
Qed.

Lemma occurrences_app (id : string) (l k : list string) :
  occurrences id (l ++ k) = (occurrences id l + occurrences id k)%nat.
Proof. unfold occurrences. by rewrite filter_app, length_app. Qed.

Lemma occurrences_NoDup (id : string) (l : list string) :
  NoDup l → (occurrences id l ≤ 1)%nat.
Proof.
  induction 1 as [|y l Hy Hl IH]; [unfold occurrences; simpl; lia|].
  unfold occurrences in *. rewrite filter_cons. case_decide as Hid; [|done].
  subst y. apply occurrences_0 in Hy. unfold occurrences in Hy.
  simpl. lia.
Qed.

Lemma splice_indexOf_once (id : string) (l : list string) :
  (occurrences id l ≤ 1)%nat → id ∉ splice_indexOf id l.
Proof.
  intros Hocc. destruct (decide (id ∈ l)) as [Hin|Hin].
  - rewrite splice_indexOf_in by done. clear Hin.
    induction l as [|y l IH]; simpl; [apply not_elem_of_nil|].
    unfold occurrences in Hocc. rewrite filter_cons in Hocc.
    destruct (decide (y = id)) as [Hy|Hy].
    + apply occurrences_0. unfold occurrences. simpl in Hocc. lia.
    + apply not_elem_of_cons. split; [congruence|]. by apply IH.
  - intros Hin'. by apply Hin, splice_indexOf_elem_of with id.
Qed.

(** C9. For a bucket that does not hold the feed id, [indexOf] is [-1] and
    the [splice] of [unfollow] removes the last element of the bucket,
    which is the feed id of another subscription. *)
Theorem unfollow_drops_last_of_other_buckets (id : string)
    (response : Outcome unit) (w : World) (v : FeedViewType) :
  id ∉ feedIdByView (store w) v →
  feedIdByView (store (exec (unfollow id response) w)) v
    = removelast (feedIdByView (store w) v)
  ∧ ∀ l x, feedIdByView (store w) v = l ++ [x] →
           feedIdByView (store (exec (unfollow id response) w)) v = l.
Proof.
  intros Hid. rewrite store_unfollow, unfollow_produce_bucket.
  rewrite splice_indexOf_not_in by done. split; [done|].
  intros l x ->. apply removelast_last.
Qed.

(** C2 (amended). When no bucket holds the feed id more than once, after
    [unfollow(feedId)] the feed id has no entry in [data] and is in no
    bucket, however the remote delete settles. *)
Theorem unfollow_removes_feedId (id : string) (response : Outcome unit)
    (w : World) :
  (∀ v, (occurrences id (feedIdByView (store w) v) ≤ 1)%nat) →
  data (store (exec (unfollow id response) w)) !! id = None
  ∧ ∀ v, id ∉ feedIdByView (store (exec (unfollow id response) w)) v.
Proof.
  intros Honce. rewrite store_unfollow. split.
  - simpl. apply lookup_delete_eq.
  - intros v. rewrite unfollow_produce_bucket. by apply splice_indexOf_once.
Qed.

(** ** [renameCategory] *)

(** C5. Every subscription whose [category] or [defaultCategory] is the
    old name has the new name as [category] and no [defaultCategory]
    after [renameCategory], and the state is the same whether the remote
    call is fulfilled or rejected. *)
Theorem renameCategory_renames (lastCategory newCategory : string)
    (response : Outcome unit) (w : World) (id : string)
    (s : SubscriptionFlatModel) :
  data (store w) !! id = Some s →
  category s = Some lastCategory ∨ defaultCategory s = Some lastCategory →
  (∃ s', data (store (exec (renameCategory lastCategory newCategory response) w))
           !! id = Some s'
         ∧ category s' = Some newCategory ∧ defaultCategory s' = None)
  ∧ store (exec (renameCategory lastCategory newCategory response) w)
    = store (exec (renameCategory lastCategory newCategory Rejected) w).
Proof.
  intros Hs Hc. rewrite !store_renameCategory. split; [|done].
  exists (set_category newCategory s).
  rewrite renameCategory_produce_lookup.
  rewrite decide_True by (apply elem_of_subscriptionIds; by exists s).
  by rewrite Hs.
Qed.

(** ** Remote-first methods *)

Section RemoteFirst.
Context `{DomainLib}.

(** When the remote call is fulfilled the local effects are there: the
    unread count of every feed of the view is set to zero and its entries
    are patched. *)
Example markReadByView_fulfilled :
  calls (exec (markReadByView Videos None (Fulfilled ())) two_feeds_world)
  = calls two_feeds_world
    ++ [feedUnreadActions_updateByFeedId "f2" 0;
        entryActions_patchManyByFeedId "f2" None].
Proof. vm_compute. done. Qed.

(** With a filter the unread counts are fetched again instead. *)
Example markReadByFeedIds_filter_fulfilled :
  let filter := Some {| startTime := 0; endTime := 10 |} in
  calls (exec (markReadByFeedIds ["f1"] (Some Articles) filter (Fulfilled ()))
           two_feeds_world)
  = calls two_feeds_world
    ++ [entryActions_patchManyByFeedId "f1" filter;
        feedUnreadActions_fetchUnreadByView (Some Articles)].
Proof. vm_compute. done. Qed.

Lemma deleteCategory_produce_lookup feeds ids st id :
  data (deleteCategory_produce feeds ids st) !! id
  = (λ s, if bool_decide (id ∈ ids) then clear_category feeds s else s)
      <$> data st !! id.
Proof.
  unfold deleteCategory_produce. simpl. rewrite map_lookup_imap.
  by destruct (data st !! id).
Qed.

(** What [deleteCategory] does when the feed of the subscription is in
    the feed store and has a site URL. *)
Lemma deleteCategory_clears (ids : list string) (w : World) (id : string)
    (s : SubscriptionFlatModel) (feed : FeedModel) (url : string) :
  id ∈ ids →
  data (store w) !! id = Some s →
  feedStore w !! feedId s = Some feed →
  siteUrl feed = Some url → truthy (Some url) = true →
  ∃ s', data (store (exec (deleteCategory ids (Fulfilled ())) w)) !! id = Some s'
        ∧ category s' = None
        ∧ (∀ domain, parse_domain url = Some domain →
                     truthy (Some domain) = true →
                     defaultCategory s' = Some (capitalizeFirstLetter domain)).
Proof.
  intros Hid Hs Hfeed Hurl Htruthy.
  rewrite store_deleteCategory, deleteCategory_produce_lookup, Hs. simpl.
  rewrite bool_decide_eq_true_2 by done.
  unfold clear_category. rewrite Hfeed, Hurl, Htruthy.
  cbn [negb mbind option_bind].
  eexists. split; [done|]. split; [done|].
  intros domain Hd Ht. cbn [defaultCategory]. rewrite Hd.
  by destruct domain.
Qed.
End RemoteFirst.

Lemma unfollow_drops_last_of_other_buckets_witness :
  ("f1" ∉ feedIdByView (store two_feeds_world) Videos)
  ∧ feedIdByView (store two_feeds_world) Videos = ["f2"]
  ∧ feedIdByView (store (exec (unfollow "f1" (Fulfilled ())) two_feeds_world)) Videos
    = [].
Proof.
  assert ("f1" ∉ feedIdByView (store two_feeds_world) Videos) as Hnot.
  { intros Hin. apply list_elem_of_singleton in Hin. discriminate Hin. }
  split; [exact Hnot|]. split; [reflexivity|].
  exact (proj1 (unfollow_drops_last_of_other_buckets "f1" (Fulfilled ())
                  two_feeds_world Videos Hnot)).
Defined.

Lemma unfollow_removes_feedId_witness :
  data (store (exec (unfollow "f1" Rejected) two_feeds_world)) !! "f1" = None
  ∧ ∀ v, "f1" ∉ feedIdByView (store (exec (unfollow "f1" Rejected) two_feeds_world)) v.
Proof.
  apply unfollow_removes_feedId.
  intros v. destruct v; vm_compute; lia.
Defined.

(** C2, as the specification states it, fails on a state in which a bucket
    holds the feed id twice, as [upsertMany] leaves it when it is called
    twice with the same subscription: [splice] removes one occurrence. *)
Lemma unfollow_leaves_duplicate :
  ¬ (∀ (w : World) (id : string) (response : Outcome unit),
       data (store (exec (unfollow id response) w)) !! id = None
       ∧ ∀ v, id ∉ feedIdByView (store (exec (unfollow id response) w)) v).
Proof.
  intros Hspec.
  destruct (Hspec doubled_world "f1" Rejected) as [_ Hgone].
  apply (Hgone Articles).
  change ("f1" ∈ ["f1"]). apply list_elem_of_here.
Qed.

Lemma renameCategory_renames_witness :
  (∃ s', data (store (exec (renameCategory "Tech" "News" (Fulfilled ())) tech_world))
           !! "f3" = Some s'
         ∧ category s' = Some "News" ∧ defaultCategory s' = None)
  ∧ store (exec (renameCategory "Tech" "News" (Fulfilled ())) tech_world)
    = store (exec (renameCategory "Tech" "News" Rejected) tech_world).
Proof.
  apply (renameCategory_renames "Tech" "News" (Fulfilled ()) tech_world "f3"
           (morphSubscription tech_subscription)).
  - reflexivity.
  - left. reflexivity.
Defined.

(** C7 at the failing input: the feed of [f3] has no site URL, and after a
    [deleteCategory] that the remote fulfilled the subscription still has
    its category. *)
Theorem deleteCategory_keeps_category_without_siteUrl :
  feedStore tech_world !! "f3" = Some {| feed_id := "f3"; siteUrl := None |}
  ∧ data (store (exec (deleteCategory ["f3"] (Fulfilled ())) tech_world)) !! "f3"
    = Some {| feedId := "f3"; view := Articles; category := Some "Tech";
              defaultCategory := None |}.
Proof. split; vm_compute; reflexivity. Qed.

(** The same for a subscription whose feed is not in the feed store. *)
Example deleteCategory_keeps_category_without_feed :
  category <$>
    data (store (exec (deleteCategory ["f3"] (Fulfilled ()))
                   (exec (upsertMany [morphSubscription tech_subscription])
                         initialWorld))) !! "f3"
  = Some (Some "Tech").
Proof. vm_compute. reflexivity. Qed.

(** With a site URL the category is cleared. *)
Example deleteCategory_clears_with_siteUrl :
  data (store (exec (deleteCategory ["f1"] (Fulfilled ()))
                 (exec (renameCategory "Example.com" "Blogs" (Fulfilled ()))
                       scenario_world))) !! "f1"
  = Some {| feedId := "f1"; view := Articles; category := None;
            defaultCategory := Some "Example.com" |}.
Proof. vm_compute. reflexivity. Qed.

(** ** [changeCategoryView] *)

Lemma elem_of_folderFeedIds (c : string) (v : FeedViewType)
    (st : SubscriptionState) (id : string) :
  id ∈ folderFeedIds c v st ↔ in_folder c st id ∧ id ∈ feedIdByView st v.
Proof.
  unfold folderFeedIds.
  apply (list_elem_of_filter (λ id, Is_true (in_folder c st id))).
Qed.

Lemma occurrences_filter_True (P : string → Prop) `{!∀ x, Decision (P x)}
    (id : string) (l : list string) :
  P id → occurrences id (filter P l) = occurrences id l.
Proof.
  intros HP. unfold occurrences. rewrite list_filter_filter.
  f_equal. apply list_filter_iff. intros x. split; [tauto|].
  intros ->. done.
Qed.

(** The buckets after the recipe of [changeCategoryView], run on the feed
    ids that the method collects. *)
Lemma changeCategoryView_produce_moves (c : string)
    (currentView changeToView : FeedViewType) (st : SubscriptionState) :
  let st' := changeCategoryView_produce (folderFeedIds c currentView st)
               currentView changeToView st in
  (currentView ≠ changeToView →
     feedIdByView st' currentView
       = filter (λ id, ¬ in_folder c st id) (feedIdByView st currentView)
     ∧ feedIdByView st' changeToView
       = feedIdByView st changeToView
         ++ filter (λ id, Is_true (in_folder c st id)) (feedIdByView st currentView))
  ∧ (currentView = changeToView →
     feedIdByView st' currentView
       = filter (λ id, ¬ in_folder c st id) (feedIdByView st currentView)
         ++ filter (λ id, Is_true (in_folder c st id)) (feedIdByView st currentView))
  ∧ (∀ v, v ≠ currentView → v ≠ changeToView →
          feedIdByView st' v = feedIdByView st v).
Proof.
  intros st'. unfold st'. split_and!.
  - intros Hne.
    destruct (changeCategoryView_produce_buckets_ne
                (folderFeedIds c currentView st) _ _ st Hne) as (H1 & H2 & _).
    rewrite H1, H2. split; [|done]. unfold folderFeedIds.
    apply (foldl_splice_filter (λ id, Is_true (in_folder c st id)) []).
    by intros x ?%elem_of_nil.
  - intros <-.
    destruct (changeCategoryView_produce_buckets_eq
                (folderFeedIds c currentView st) currentView st) as (H1 & _).
    rewrite H1. unfold folderFeedIds.
    pose proof (foldl_splice_push_filter (λ id, Is_true (in_folder c st id))
                  [] (feedIdByView st currentView) []) as Hf.
    rewrite !app_nil_r in Hf. simpl in Hf. apply Hf.
    by intros x ?%elem_of_nil.
  - intros v Hv1 Hv2. destruct (decide (currentView = changeToView)) as [<-|Hne].
    + by apply changeCategoryView_produce_buckets_eq.
    + by apply changeCategoryView_produce_buckets_ne.
Qed.

(** C6 (amended). When every remote patch is fulfilled and the two views
    differ, [changeCategoryView] removes every occurrence of a matched
    feed id from the bucket of the current view and appends it to the
    bucket of the other view, so once when the feed id was there once,
    and sets the stored view of its subscription; feed ids that do not
    match stay in place, and the other buckets and subscriptions are as
    they were. *)
Theorem changeCategoryView_moves (c : string) (fromView toView : FeedViewType)
    (patch : string → Outcome unit) (w : World) :
  (∀ id, id ∈ folderFeedIds c fromView (store w) → patch id = Fulfilled ()) →
  fromView ≠ toView →
  let st := store w in
  let st' := store (exec (changeCategoryView c fromView toView patch) w) in
  feedIdByView st' fromView
    = filter (λ id, ¬ in_folder c st id) (feedIdByView st fromView)
  ∧ feedIdByView st' toView
    = feedIdByView st toView
      ++ filter (λ id, Is_true (in_folder c st id)) (feedIdByView st fromView)
  ∧ (∀ v, v ≠ fromView → v ≠ toView → feedIdByView st' v = feedIdByView st v)
  ∧ (∀ id, id ∈ feedIdByView st fromView → in_folder c st id →
           (id ∉ feedIdByView st' fromView)
           ∧ occurrences id (feedIdByView st' toView)
             = (occurrences id (feedIdByView st toView)
                + occurrences id (feedIdByView st fromView))%nat
           ∧ view <$> data st' !! id = Some toView)
  ∧ (∀ id, ¬ (id ∈ feedIdByView st fromView ∧ in_folder c st id) →
           data st' !! id = data st !! id).
Proof.
  intros Hok Hne st st'. unfold st'.
  rewrite store_changeCategoryView_fulfilled by done. fold st.
  destruct (changeCategoryView_produce_moves c fromView toView st)
    as (Hmove & _ & Hother).
  destruct (Hmove Hne) as [Hfrom Hto]. split_and!; [done..| |].
  - intros id Hin Hmatch. rewrite Hfrom, Hto. split_and!.
    + intros [Hnot _]%list_elem_of_filter. done.
    + rewrite occurrences_app. f_equal.
      by apply (occurrences_filter_True (λ id, Is_true (in_folder c st id))).
    + rewrite changeCategoryView_produce_lookup.
      rewrite decide_True by (by apply elem_of_folderFeedIds).
      apply in_folder_spec in Hmatch as (s & -> & _). done.
  - intros id Hnot. rewrite changeCategoryView_produce_lookup.
    rewrite decide_False; [done|].
    intros [? ?]%elem_of_folderFeedIds. by apply Hnot.
Qed.

Lemma changeCategoryView_moves_witness :
  let st' := store (exec (changeCategoryView "Tech" Articles Videos
                            (λ _, Fulfilled ())) tech_world) in
  feedIdByView (store tech_world) Articles = ["f1"; "f3"]
  ∧ feedIdByView st' Articles = ["f1"]
  ∧ feedIdByView st' Videos = ["f3"]
  ∧ view <$> data st' !! "f3" = Some Videos.
Proof.
  intros st'.
  assert (Articles ≠ Videos) as Hne by discriminate.
  destruct (changeCategoryView_moves "Tech" Articles Videos (λ _, Fulfilled ())
              tech_world (λ _ _, eq_refl) Hne)
    as (Hfrom & Hto & _ & Hmoved & _).
  split; [reflexivity|]. split; [exact Hfrom|]. split; [exact Hto|].
  apply (Hmoved "f3").
  - apply elem_of_cons. right. apply list_elem_of_here.
  - exact I.
Defined.

(** C6, as the specification states it, fails on a state in which the
    bucket holds a matched feed id twice: both occurrences are moved, and
    the feed id is then twice in the bucket of the other view. *)
Lemma changeCategoryView_duplicate_moved_twice :
  ¬ (∀ (w : World) (c : string) (fromView toView : FeedViewType) (id : string),
       id ∈ feedIdByView (store w) fromView →
       in_folder c (store w) id →
       let st' := store (exec (changeCategoryView c fromView toView
                                 (λ _, Fulfilled ())) w) in
       (id ∉ feedIdByView st' fromView)
       ∧ occurrences id (feedIdByView st' toView) = 1%nat
       ∧ view <$> data st' !! id = Some toView).
Proof.
  intros Hspec.
  destruct (Hspec doubled_world "Example.com" Articles Videos "f1")
    as (_ & Honce & _).
  - apply list_elem_of_here.
  - exact I.
  - vm_compute in Honce. discriminate Honce.
Qed.

(** What the method does there, and when the two views are the same. *)
Example changeCategoryView_on_doubled_world :
  let st' := store (exec (changeCategoryView "Example.com" Articles Videos
                            (λ _, Fulfilled ())) doubled_world) in
  feedIdByView (store doubled_world) Articles = ["f1"; "f1"]
  ∧ feedIdByView st' Articles = [] ∧ feedIdByView st' Videos = ["f1"; "f1"].
Proof. vm_compute. done. Qed.

Example changeCategoryView_same_view :
  let w := exec (fetchByView None
                   (Fulfilled [tech_subscription; scenario_subscription]))
                initialWorld in
  let st' := store (exec (changeCategoryView "Tech" Articles Articles
                            (λ _, Fulfilled ())) w) in
  feedIdByView (store w) Articles = ["f3"; "f1"]
  ∧ feedIdByView st' Articles = ["f1"; "f3"].
Proof. vm_compute. done. Qed.

Example changeCategoryView_rejected :
  exec (changeCategoryView "Tech" Articles Videos (λ _, Rejected)) tech_world
  = tech_world.
Proof. vm_compute. done. Qed.

(** ** The invariant through the methods *)

Lemma unfollow_produce_sound (id : string) (st : SubscriptionState) :
  (∀ v, (occurrences id (feedIdByView st v) ≤ 1)%nat) →
  bucket_sound st → bucket_sound (unfollow_produce id st).
Proof.
  intros Honce Hs v x. rewrite unfollow_produce_bucket. intros Hin.
  assert (x ≠ id) as Hne.
  { intros ->. by apply (splice_indexOf_once id (feedIdByView st v)). }
  simpl. rewrite lookup_delete_ne by done.
  apply Hs. by apply splice_indexOf_elem_of with id.
Qed.

Lemma renameCategory_produce_sound (ids : list string) (newCategory : string)
    (st : SubscriptionState) :
  bucket_sound st → bucket_sound (renameCategory_produce ids newCategory st).
Proof.
  intros Hs v id Hin. destruct (Hs v id Hin) as (s & Hl & Hv).
  rewrite renameCategory_produce_lookup, Hl.
  case_decide; eexists; (split; [done|]); done.
Qed.

Lemma changeCategoryView_produce_sound (c : string)
    (currentView changeToView : FeedViewType) (st : SubscriptionState) :
  bucket_sound st →
  bucket_sound (changeCategoryView_produce (folderFeedIds c currentView st)
                  currentView changeToView st).
Proof.
  intros Hs.
  pose proof (bucket_sound_one_bucket st Hs) as Hone.
  destruct (changeCategoryView_produce_moves c currentView changeToView st)
    as (Hne & Heq & Hother).
  assert (∀ v id, id ∈ feedIdByView st v → v ≠ currentView →
            ∃ s, data (changeCategoryView_produce (folderFeedIds c currentView st)
                         currentView changeToView st) !! id = Some s
                 ∧ view s = v) as Hkeep.
  { intros v id Hin Hv. rewrite changeCategoryView_produce_lookup.
    rewrite decide_False; [by apply Hs|].
    intros [_ Hcur]%elem_of_folderFeedIds. apply Hv. by apply (Hone _ _ id). }
  assert (∀ id, id ∈ feedIdByView st currentView →
            ∃ s, data (changeCategoryView_produce (folderFeedIds c currentView st)
                         currentView changeToView st) !! id = Some s
                 ∧ view s = if decide (id ∈ folderFeedIds c currentView st)
                            then changeToView else currentView) as Hcur.
  { intros id Hin. rewrite changeCategoryView_produce_lookup.
    destruct (Hs _ _ Hin) as (s & Hl & Hv). rewrite Hl.
    case_decide; eexists; (split; [done|]); done. }
  intros v id Hin.
  destruct (decide (currentView = changeToView)) as [Hsame|Hdiff].
  - destruct (decide (v = currentView)) as [->|Hv].
    + rewrite (Heq Hsame) in Hin.
      assert (id ∈ feedIdByView st currentView) as Hold.
      { apply elem_of_app in Hin as [Hin|Hin];
          by apply list_elem_of_filter in Hin as [_ ?]. }
      destruct (Hcur id Hold) as (s & Hl & Hv). exists s. split; [done|].
      rewrite Hv. by case_decide.
    + rewrite Hother in Hin by congruence. by apply Hkeep.
  - destruct (Hne Hdiff) as [Hfrom Hto].
    destruct (decide (v = currentView)) as [->|Hv].
    + rewrite Hfrom in Hin. apply list_elem_of_filter in Hin as [Hnot Hold].
      destruct (Hcur id Hold) as (s & Hl & Hv). exists s. split; [done|].
      rewrite Hv. rewrite decide_False; [done|].
      by intros [? _]%elem_of_folderFeedIds.
    + destruct (decide (v = changeToView)) as [->|Hv'].
      * rewrite Hto in Hin. apply elem_of_app in Hin as [Hin|Hin].
        -- by apply Hkeep.
        -- apply (list_elem_of_filter (λ id, Is_true (in_folder c st id)))
             in Hin as [Hmatch Hold].
           destruct (Hcur id Hold) as (s & Hl & Hvs). exists s. split; [done|].
           rewrite Hvs. rewrite decide_True; [done|].
           by apply elem_of_folderFeedIds.
      * rewrite Hother in Hin by done. by apply Hkeep.
Qed.

Lemma for_each_remote_cases (ids : list string) (patch : string → Outcome unit) :
  (∀ id, id ∈ ids → patch id = Fulfilled ())
  ∨ (∃ id, id ∈ ids ∧ patch id = Rejected).
Proof.
  induction ids as [|id ids [IH|(bad & Hin & Hbad)]].
  - left. by intros id ?%elem_of_nil.
  - destruct (patch id) as [[]|] eqn:Hid.
    + left. intros id' [->|Hin]%elem_of_cons; [done|by apply IH].
    + right. exists id. split; [apply list_elem_of_here|done].
  - right. exists bad. split; [|done]. apply elem_of_cons. by right.
Qed.

Section Invariant.
Context `{DomainLib}.

Lemma clear_category_view feeds s : view (clear_category feeds s) = view s.
Proof.
  unfold clear_category. destruct (feeds !! feedId s) as [feed|]; [|done].
  by destruct (negb (truthy (siteUrl feed))).
Qed.

Lemma deleteCategory_produce_sound feeds ids st :
  bucket_sound st → bucket_sound (deleteCategory_produce feeds ids st).
Proof.
  intros Hs v id Hin. destruct (Hs v id Hin) as (s & Hl & Hv).
  rewrite deleteCategory_produce_lookup, Hl. simpl.
  eexists. split; [done|]. case_bool_decide; [|done].
  by rewrite clear_category_view.
Qed.

(** C3 (amended). [markReadByView], [markReadByFeedIds],
    [deleteCategory], [changeCategoryView], [renameCategory] and [clear]
    preserve the invariant; [unfollow] preserves it when no bucket holds
    the feed id more than once; [upsertMany] and [fetchByView] preserve it
    when the subscriptions they upsert agree on the view of every feed id
    with the buckets (as [fetchByView] has reset them) and with one
    another. *)
Theorem methods_preserve_Inv (w : World) :
  Inv (store w) →
  (∀ view res,
     upsert_agrees (morphResponseData res) (reset_buckets view (store w)) →
     Inv (store (exec (fetchByView view (Fulfilled res)) w)))
  ∧ (∀ view, Inv (store (exec (fetchByView view Rejected) w)))
  ∧ (∀ subscriptions,
       upsert_agrees subscriptions (store w) →
       Inv (store (exec (upsertMany subscriptions) w)))
  ∧ (∀ view filter response,
       Inv (store (exec (markReadByView view filter response) w)))
  ∧ (∀ feedIds view filter response,
       Inv (store (exec (markReadByFeedIds feedIds view filter response) w)))
  ∧ (∀ ids response, Inv (store (exec (deleteCategory ids response) w)))
  ∧ (∀ id response,
       (∀ v, (occurrences id (feedIdByView (store w) v) ≤ 1)%nat) →
       Inv (store (exec (unfollow id response) w)))
  ∧ (∀ c currentView changeToView patch,
       Inv (store (exec (changeCategoryView c currentView changeToView patch) w)))
  ∧ (∀ lastCategory newCategory response,
       Inv (store (exec (renameCategory lastCategory newCategory response) w)))
  ∧ Inv (store (exec clear w)).
Proof.
  intros [Hs _]. split_and!.
  - intros view res Hagree. rewrite store_fetchByView.
    apply bucket_sound_Inv, upsertMany_produce_sound; [done|].
    by apply reset_buckets_sound.
  - intros view. by apply bucket_sound_Inv.
  - intros subscriptions Hagree. rewrite store_upsertMany.
    by apply bucket_sound_Inv, upsertMany_produce_sound.
  - intros view filter response. rewrite store_markReadByView.
    by apply bucket_sound_Inv.
  - intros feedIds view filter response. rewrite store_markReadByFeedIds.
    by apply bucket_sound_Inv.
  - intros ids [[]|].
    + rewrite store_deleteCategory.
      by apply bucket_sound_Inv, deleteCategory_produce_sound.
    + by apply bucket_sound_Inv.
  - intros id response Honce. rewrite store_unfollow.
    by apply bucket_sound_Inv, unfollow_produce_sound.
  - intros c currentView changeToView patch.
    destruct (for_each_remote_cases (folderFeedIds c currentView (store w))
                patch) as [Hok|Hbad].
    + rewrite store_changeCategoryView_fulfilled by done.
      by apply bucket_sound_Inv, changeCategoryView_produce_sound.
    + rewrite exec_changeCategoryView_rejected by done.
      by apply bucket_sound_Inv.
  - intros lastCategory newCategory response. rewrite store_renameCategory.
    by apply bucket_sound_Inv, renameCategory_produce_sound.
  - apply Inv_initialState.
Qed.
End Invariant.

Lemma bucket_soundb_sound (st : SubscriptionState) :
  bucket_soundb st = true → bucket_sound st.
Proof.
  unfold bucket_soundb. rewrite forallb_forall. intros Hall v id Hin.
  specialize (Hall v (proj1 (list_elem_of_In _ _) (all_views_complete v))).
  rewrite forallb_forall in Hall.
  specialize (Hall id (proj1 (list_elem_of_In _ _) Hin)).
  destruct (data st !! id) as [s|]; [|done].
  exists s. split; [done|]. by apply bool_decide_eq_true in Hall.
Qed.

Lemma not_elem_of_compute (x : string) (l : list string) :
  bool_decide (x ∈ l) = false → x ∉ l.
Proof. apply bool_decide_eq_false. Qed.

Lemma Inv_scenario_world : Inv (store scenario_world).
Proof. apply bucket_sound_Inv, bucket_soundb_sound. vm_compute. done. Qed.

Lemma Inv_two_feeds_world : Inv (store two_feeds_world).
Proof. apply bucket_sound_Inv, bucket_soundb_sound. vm_compute. done. Qed.

Lemma methods_preserve_Inv_witness :
  Inv (store two_feeds_world)
  ∧ Inv (store (exec (unfollow "f1" Rejected) two_feeds_world))
  ∧ Inv (store (exec (upsertMany [morphSubscription scenario_subscription])
                  two_feeds_world))
  ∧ Inv (store (exec (fetchByView (Some Articles) (Fulfilled [scenario_subscription]))
                  two_feeds_world))
  ∧ Inv (store (exec (changeCategoryView "Example.com" Articles Videos
                        (λ _, Fulfilled ())) two_feeds_world)).
Proof.
  pose proof Inv_two_feeds_world as HInv.
  destruct (methods_preserve_Inv (H := Tldts.lib) two_feeds_world HInv)
    as (Hfetch & _ & Hupsert & _ & _ & _ & Hunfollow & Hchange & _).
  assert (∀ st : SubscriptionState,
            (∀ v, "f1" ∈ feedIdByView st v → Articles = v) →
            upsert_agrees [morphSubscription scenario_subscription] st) as Hagree.
  { intros st Hst. split.
    - intros s v Hs Hin. apply list_elem_of_singleton in Hs. subst s.
      by apply Hst.
    - intros s s' Hs Hs' _. apply list_elem_of_singleton in Hs, Hs'.
      by subst. }
  split; [exact HInv|]. split_and!.
  - apply Hunfollow. intros v. destruct v; vm_compute; lia.
  - apply Hupsert, Hagree. intros v Hin. destruct v; try reflexivity;
      exfalso; revert Hin; apply not_elem_of_compute; vm_compute; reflexivity.
  - apply Hfetch, Hagree. intros v Hin. destruct v; try reflexivity;
      exfalso; revert Hin; apply not_elem_of_compute; vm_compute; reflexivity.
  - apply Hchange.
Defined.

(** C3, as the specification states it, fails for [upsertMany]: a
    subscription whose view has changed is appended to the bucket of its
    new view and stays in the bucket of its old one. *)
Lemma upsertMany_breaks_Inv :
  ¬ (∀ (w : World) (subscriptions : list SubscriptionFlatModel),
       Inv (store w) → Inv (store (exec (upsertMany subscriptions) w))).
Proof.
  intros Hspec.
  destruct (Hspec scenario_world [morphSubscription moved_subscription]
              Inv_scenario_world) as [_ Hone].
  assert (Articles = Videos) as Heq; [|discriminate Heq].
  apply (Hone Articles Videos "f1"); apply list_elem_of_here.
Qed.

(** The same through [fetchByView] of the new view. *)
Example fetchByView_view_breaks_Inv :
  let st' := store (exec (fetchByView (Some Videos) (Fulfilled [moved_subscription]))
                      scenario_world) in
  feedIdByView st' Articles = ["f1"] ∧ feedIdByView st' Videos = ["f1"]
  ∧ view <$> data st' !! "f1" = Some Videos.
Proof. vm_compute. done. Qed.

(** * Further properties of the store *)

(** ** [upsertMany] and [fetchByView] *)

(** X1. [upsertMany] appends the feed id of every subscription to the
    bucket of its view, in the order of the call; it removes nothing from
    a bucket and does not look for the feed id in it. *)
Theorem upsertMany_appends_to_buckets
    (subscriptions : list SubscriptionFlatModel) (w : World) (v : FeedViewType) :
  feedIdByView (store (exec (upsertMany subscriptions) w)) v
  = feedIdByView (store w) v
    ++ (feedId <$> filter (λ s, view s = v) subscriptions).
Proof. rewrite store_upsertMany. apply upsertMany_produce_buckets. Qed.

(** X2. In [data] the last subscription upserted under a feed id is the
    one stored, and the entry of a feed id that is not upserted is as it
    was. *)
Theorem upsertMany_last_write_wins (w : World) :
  (∀ pre s post,
     feedId s ∉ feedId <$> post →
     data (store (exec (upsertMany (pre ++ s :: post)) w)) !! feedId s = Some s)
  ∧ (∀ subscriptions id,
       id ∉ feedId <$> subscriptions →
       data (store (exec (upsertMany subscriptions) w)) !! id
       = data (store w) !! id).
Proof.
  split.
  - intros pre s post Hpost. rewrite store_upsertMany.
    by apply upsertMany_produce_lookup_last.
  - intros subscriptions id Hid. rewrite store_upsertMany.
    by apply upsertMany_produce_lookup_not_in.
Qed.

Lemma upsertMany_last_write_wins_witness :
  data (store (exec (upsertMany [morphSubscription scenario_subscription;
                                 morphSubscription moved_subscription])
                 initialWorld)) !! "f1"
  = Some (morphSubscription moved_subscription)
  ∧ data (store (exec (upsertMany [morphSubscription moved_subscription])
                   two_feeds_world)) !! "f2"
    = data (store two_feeds_world) !! "f2".
Proof.
  destruct (upsertMany_last_write_wins initialWorld) as [Hlast _].
  destruct (upsertMany_last_write_wins two_feeds_world) as [_ Hother].
  split.
  - exact (Hlast [morphSubscription scenario_subscription]
             (morphSubscription moved_subscription) [] (not_elem_of_nil _)).
  - apply Hother. apply not_elem_of_compute. vm_compute. reflexivity.
Defined.

Section FetchMore.
Context `{DomainLib}.

Lemma morphResponseData_of_view (res : list SubscriptionModel) (v : FeedViewType) :
  feedId <$> filter (λ s, view s = v) (morphResponseData res)
  = sub_feedId <$> filter (λ s, sub_view s = v) res.
Proof.
  unfold morphResponseData. induction res as [|s res IH]; [done|].
  cbn [map]. rewrite !filter_cons, morphSubscription_view.
  case_decide; [|done].
  rewrite !fmap_cons, morphSubscription_feedId. by f_equal.
Qed.

(** X3. [fetchByView(view)] empties the bucket of that view only, and
    [fetchByView(undefined)] all of them; every fetched feed id is then
    appended to the bucket of the view its own record carries. *)
Theorem fetchByView_buckets (view : option FeedViewType)
    (res : list SubscriptionModel) (w : World) (v : FeedViewType) :
  feedIdByView (store (exec (fetchByView view (Fulfilled res)) w)) v
  = (match view with
     | Some v0 => if decide (v = v0) then [] else feedIdByView (store w) v
     | None => []
     end)
    ++ (sub_feedId <$> filter (λ s, sub_view s = v) res).
Proof.
  rewrite store_fetchByView, upsertMany_produce_buckets.
  rewrite morphResponseData_of_view. f_equal.
  by destruct view.
Qed.

(** X4. [fetchByView] never removes an entry from [data]: a feed id that
    has an entry before has one afterwards, fetched or not. *)
Theorem fetchByView_keeps_data_keys (view : option FeedViewType)
    (res : list SubscriptionModel) (w : World) (id : string) :
  is_Some (data (store w) !! id) →
  is_Some (data (store (exec (fetchByView view (Fulfilled res)) w)) !! id).
Proof.
  intros Hid. rewrite store_fetchByView.
  destruct (decide (id ∈ feedId <$> morphResponseData res)) as [Hin|Hin].
  - destruct (upsertMany_produce_lookup_in _
                (reset_buckets view (store w)) _ Hin) as (f & _ & _ & ->).
    by exists f.
  - rewrite upsertMany_produce_lookup_not_in by done. by destruct view.
Qed.

(** X5. From any state, also one that breaks the invariant,
    [fetchByView(undefined)] leaves a state that satisfies it, when the
    response gives no feed id two views. *)
Theorem fetchByView_all_establishes_Inv (w : World)
    (res : list SubscriptionModel) :
  (∀ s s', s ∈ res → s' ∈ res →
           sub_feedId s = sub_feedId s' → sub_view s = sub_view s') →
  Inv (store (exec (fetchByView None (Fulfilled res)) w)).
Proof.
  intros Hviews. rewrite store_fetchByView.
  apply bucket_sound_Inv, upsertMany_produce_sound.
  - split.
    + intros s v _ Hin. by apply elem_of_nil in Hin.
    + intros f f' (s & Hs & ->)%elem_of_morphResponseData
        (s' & Hs' & ->)%elem_of_morphResponseData.
      rewrite !morphSubscription_feedId, !morphSubscription_view.
      by apply Hviews.
  - intros v id Hin. by apply elem_of_nil in Hin.
Qed.

Lemma morphSubscription_category s :
  category (morphSubscription s) = sub_category s.
Proof.
  unfold morphSubscription.
  destruct (sub_feeds s) as [feeds|]; [|done].
  destruct (negb (truthy (sub_category s))); [|done].
  destruct (negb (truthy (siteUrl feeds))); [done|].
  destruct (siteUrl feeds ≫= parse_domain) as [d|]; [|done].
  by destruct (truthy (Some d)).
Qed.

Lemma morphSubscription_with_category s :
  truthy (sub_category s) = true → defaultCategory (morphSubscription s) = None.
Proof.
  intros Hc. unfold morphSubscription. rewrite Hc.
  by destruct (sub_feeds s).
Qed.

(** X6. [morphResponseData] keeps the number and the order of the
    subscriptions and the feed id, view and category of each; a
    subscription with a category gets no [defaultCategory]. *)
Theorem morphResponseData_keeps_fields (res : list SubscriptionModel) :
  length (morphResponseData res) = length res
  ∧ ∀ (i : nat) s, res !! i = Some s →
      ∃ f, morphResponseData res !! i = Some f
           ∧ feedId f = sub_feedId s ∧ view f = sub_view s
           ∧ category f = sub_category s
           ∧ (truthy (sub_category s) = true → defaultCategory f = None).
Proof.
  unfold morphResponseData. split; [apply length_map|].
  intros i s Hi. exists (morphSubscription s). split.
  - change (map morphSubscription res) with (morphSubscription <$> res).
    by rewrite list_lookup_fmap, Hi.
  - split; [apply morphSubscription_feedId|].
    split; [apply morphSubscription_view|].
    split; [apply morphSubscription_category|].
    apply morphSubscription_with_category.
Qed.
End FetchMore.

Lemma fetchByView_keeps_data_keys_witness :
  is_Some (data (store (exec (fetchByView (Some Articles) (Fulfilled []))
                          two_feeds_world)) !! "f1").
Proof.
  apply fetchByView_keeps_data_keys. eexists. reflexivity.
Defined.

Lemma fetchByView_all_establishes_Inv_witness :
  ¬ Inv (store broken_world)
  ∧ Inv (store (exec (fetchByView None
                        (Fulfilled [moved_subscription; bare_subscription]))
                  broken_world)).
Proof.
  split.
  - intros [_ Hone].
    assert (Articles = Videos) as Heq; [|discriminate Heq].
    apply (Hone Articles Videos "f1"); apply list_elem_of_here.
  - apply fetchByView_all_establishes_Inv.
    intros s s' Hs Hs' Hid.
    apply elem_of_cons in Hs as [->|Hs];
      [|apply list_elem_of_singleton in Hs as ->];
      (apply elem_of_cons in Hs' as [->|Hs'];
       [|apply list_elem_of_singleton in Hs' as ->]);
      first [reflexivity | discriminate Hid].
Defined.

Lemma morphResponseData_keeps_fields_witness :
  ∃ f, morphResponseData [scenario_subscription; tech_subscription] !! 1%nat = Some f
       ∧ feedId f = "f3" ∧ view f = Articles ∧ category f = Some "Tech"
       ∧ defaultCategory f = None.
Proof.
  destruct (proj2 (morphResponseData_keeps_fields
                     [scenario_subscription; tech_subscription])
              1%nat tech_subscription eq_refl)
    as (f & Hf & Hid & Hv & Hc & Hd).
  exists f. repeat split; try assumption. apply Hd. reflexivity.
Defined.

(** ** [unfollow] and [getSubscriptionByFeedId] *)

Lemma length_remove_first (x : string) (l : list string) :
  x ∈ l → length (remove_first x l) = Nat.pred (length l).
Proof.
  induction l as [|y l IH]; simpl; [by intros ?%elem_of_nil|].
  intros Hx. destruct (decide (y = x)) as [_|Hne]; [done|].
  apply elem_of_cons in Hx as [->|Hl]; [done|].
  simpl. rewrite IH by done. destruct l; [by apply elem_of_nil in Hl|done].
Qed.

Lemma length_splice_indexOf (x : string) (l : list string) :
  length (splice_indexOf x l) = Nat.pred (length l).
Proof.
  destruct (decide (x ∈ l)) as [Hin|Hin].
  - rewrite splice_indexOf_in by done. by apply length_remove_first.
  - rewrite splice_indexOf_not_in by done.
    rewrite removelast_firstn_len, length_take. lia.
Qed.

Lemma filter_ne_not_in (x : string) (l : list string) :
  x ∉ l → filter (λ y, y ≠ x) l = l.
Proof.
  induction l as [|y l IH]; [done|].
  intros [Hne Hl]%not_elem_of_cons. rewrite filter_cons.
  rewrite decide_True by congruence. by rewrite IH.
Qed.

Lemma remove_first_NoDup (x : string) (l : list string) :
  NoDup l → remove_first x l = filter (λ y, y ≠ x) l.
Proof.
  induction 1 as [|y l Hy Hl IH]; [done|].
  simpl. rewrite filter_cons. destruct (decide (y = x)) as [->|Hne].
  - rewrite decide_False by (intros Hn; by apply Hn).
    by rewrite filter_ne_not_in.
  - rewrite decide_True by done. by rewrite IH.
Qed.

(** X7. [unfollow] takes exactly one feed id out of every bucket that is
    not empty, whether the bucket holds the unfollowed feed id or not; what
    stays keeps its order. *)
Theorem unfollow_shortens_every_bucket (id : string) (response : Outcome unit)
    (w : World) (v : FeedViewType) :
  length (feedIdByView (store (exec (unfollow id response) w)) v)
  = Nat.pred (length (feedIdByView (store w) v))
  ∧ feedIdByView (store (exec (unfollow id response) w)) v
    `sublist_of` feedIdByView (store w) v.
Proof.
  rewrite store_unfollow, unfollow_produce_bucket. split.
  - apply length_splice_indexOf.
  - apply splice_indexOf_sublist.
Qed.

(** X8. A subscription that was upserted is what
    [getSubscriptionByFeedId] returns for its feed id, and after
    [unfollow] of that feed id it returns nothing, however the remote
    call settles and whatever the buckets hold. *)
Theorem getSubscriptionByFeedId_round_trip (s : SubscriptionFlatModel)
    (response : Outcome unit) (w : World) :
  (getSubscriptionByFeedId (feedId s) (exec (upsertMany [s]) w)).1
  = Fulfilled (Some s)
  ∧ (getSubscriptionByFeedId (feedId s)
       (exec (unfollow (feedId s) response) (exec (upsertMany [s]) w))).1
    = Fulfilled None.
Proof.
  split.
  - unfold getSubscriptionByFeedId, mbind, Action_bind, get, mret, Action_ret.
    cbn [fst]. f_equal. rewrite store_upsertMany.
    apply (upsertMany_produce_lookup_last [] [] s), not_elem_of_nil.
  - unfold getSubscriptionByFeedId, mbind, Action_bind, get, mret, Action_ret.
    cbn [fst]. f_equal. rewrite store_unfollow. simpl.
    apply lookup_delete_eq.
Qed.

(** X9. [unfollow] leaves the entry of every other feed id in [data] as
    it was, and out of a bucket that holds the unfollowed feed id and no
    feed id twice it takes that feed id and no other. *)
Theorem unfollow_frame (id : string) (response : Outcome unit) (w : World) :
  (∀ id', id' ≠ id →
     data (store (exec (unfollow id response) w)) !! id'
     = data (store w) !! id')
  ∧ (∀ v, NoDup (feedIdByView (store w) v) →
          id ∈ feedIdByView (store w) v →
          feedIdByView (store (exec (unfollow id response) w)) v
          = filter (λ x, x ≠ id) (feedIdByView (store w) v)).
Proof.
  rewrite store_unfollow. split.
  - intros id' Hne. simpl. by apply lookup_delete_ne.
  - intros v Hnd Hin. rewrite unfollow_produce_bucket.
    rewrite splice_indexOf_in by done. by apply remove_first_NoDup.
Qed.

Lemma unfollow_frame_witness :
  data (store (exec (unfollow "f3" Rejected) tech_world)) !! "f1"
  = data (store tech_world) !! "f1"
  ∧ feedIdByView (store tech_world) Articles = ["f1"; "f3"]
  ∧ feedIdByView (store (exec (unfollow "f1" Rejected) tech_world)) Articles
    = ["f3"].
Proof.
  split; [|split; [reflexivity|]].
  - apply (proj1 (unfollow_frame "f3" Rejected tech_world)). discriminate.
  - apply (proj2 (unfollow_frame "f1" Rejected tech_world) Articles).
    + apply (bool_decide_unpack _). vm_compute. exact I.
    + apply list_elem_of_here.
Defined.

(** X10. Whatever the remote call does, [unfollow] clears the entries of
    the feed and sets its unread count to zero, in that order and before
    anything else, and it does not write to the feed store. *)
Theorem unfollow_clears_entries_and_unread (id : string)
    (response : Outcome unit) (w : World) :
  feedStore (exec (unfollow id response) w) = feedStore w
  ∧ ∃ rest, calls (exec (unfollow id response) w)
            = calls w
              ++ [entryActions_clearByFeedId id;
                  feedUnreadActions_updateByFeedId id 0]
              ++ rest.
Proof.
  destruct response as [[]|].
  - split; [done|]. exists [SubscriptionService_removeSubscription id].
    unfold exec. simpl. by rewrite <- !app_assoc.
  - split; [done|]. exists []. unfold exec. simpl. by rewrite <- !app_assoc.
Qed.

(** ** Loops that only make calls *)

Lemma for_each_calls {A} (l : list A) (body : A → Action unit)
    (f : A → list Call) (w : World) :
  (∀ x w, body x w
          = (Fulfilled (),
             {| store := store w; feedStore := feedStore w;
                calls := calls w ++ f x |})) →
  for_each l body w
  = (Fulfilled (),
     {| store := store w; feedStore := feedStore w;
        calls := calls w ++ (l ≫= f) |}).
Proof.
  intros Hbody. revert w. induction l as [|x l IH]; intros w.
  - simpl. destruct w. simpl. by rewrite app_nil_r.
  - cbn [for_each]. unfold mbind at 1, Action_bind at 1.
    rewrite Hbody, IH. simpl. by rewrite <- app_assoc.
Qed.

Lemma bind_upsert_calls (m : gmap string SubscriptionFlatModel)
    (ids : list string) :
  (ids ≫= λ id, match m !! id with
                 | Some s => [SubscriptionService_upsert s]
                 | None => []
                 end)
  = SubscriptionService_upsert <$> omap (λ id, m !! id) ids.
Proof.
  induction ids as [|id ids IH]; [done|].
  cbn [mbind list_bind omap list_omap]. rewrite IH.
  by destruct (m !! id).
Qed.

(** ** [renameCategory] *)

(** X11. [renameCategory] changes no bucket, no view and no feed id, adds
    no entry to [data] and removes none from it, and leaves a subscription
    whose [category] and [defaultCategory] are both different from the old
    name as it was. *)
Theorem renameCategory_frame (lastCategory newCategory : string)
    (response : Outcome unit) (w : World) :
  let st := store w in
  let st' := store (exec (renameCategory lastCategory newCategory response) w) in
  feedIdByView st' = feedIdByView st
  ∧ (∀ id s, data st !! id = Some s →
             category s ≠ Some lastCategory →
             defaultCategory s ≠ Some lastCategory →
             data st' !! id = Some s)
  ∧ (∀ id s', data st' !! id = Some s' →
              ∃ s, data st !! id = Some s
                   ∧ feedId s' = feedId s ∧ view s' = view s)
  ∧ (∀ id, data st !! id = None → data st' !! id = None)
  ∧ (∀ id s, data st !! id = Some s →
             ∃ s', data st' !! id = Some s'
                   ∧ feedId s' = feedId s ∧ view s' = view s).
Proof.
  intros st st'. unfold st'. rewrite store_renameCategory. fold st.
  split_and!; [done| | | |].
  - intros id s Hs Hc Hd. rewrite renameCategory_produce_lookup.
    rewrite decide_False; [done|].
    intros (s0 & Hs0 & Hm)%elem_of_subscriptionIds.
    unfold st in Hs, Hs0. rewrite Hs in Hs0. injection Hs0 as <-. tauto.
  - intros id s'. rewrite renameCategory_produce_lookup.
    destruct (data st !! id) as [s|]; [|by case_decide].
    case_decide; intros [= <-]; by exists s.
  - intros id Hn. rewrite renameCategory_produce_lookup, Hn. by case_decide.
  - intros id s Hs. rewrite renameCategory_produce_lookup, Hs.
    case_decide; eexists; (split; [done|]); done.
Qed.

Lemma renameCategory_frame_witness :
  data (store (exec (renameCategory "Tech" "News" Rejected) tech_world)) !! "f1"
  = Some (morphSubscription scenario_subscription)
  ∧ data (store (exec (renameCategory "Tech" "News" Rejected) tech_world)) !! "f9"
    = None
  ∧ ∃ s', data (store (exec (renameCategory "Tech" "News" Rejected) tech_world))
            !! "f3" = Some s'
          ∧ feedId s' = "f3" ∧ view s' = Articles.
Proof.
  destruct (renameCategory_frame "Tech" "News" Rejected tech_world)
    as (_ & Hkeep & _ & Hnone & Hstays).
  split_and!.
  - apply Hkeep; [reflexivity|discriminate|discriminate].
  - apply Hnone. reflexivity.
  - apply (Hstays "f3" (morphSubscription tech_subscription)). reflexivity.
Defined.

(** X12. After [renameCategory] from an old name to a different new name
    no subscription has the old name as [category] or [defaultCategory],
    so renaming the old name once more changes nothing in the state. *)
Theorem renameCategory_leaves_no_match (lastCategory newCategory : string)
    (response : Outcome unit) (w : World) :
  lastCategory ≠ newCategory →
  let w' := exec (renameCategory lastCategory newCategory response) w in
  (∀ id s', data (store w') !! id = Some s' →
            category s' ≠ Some lastCategory
            ∧ defaultCategory s' ≠ Some lastCategory)
  ∧ ∀ other response',
      store (exec (renameCategory lastCategory other response') w') = store w'.
Proof.
  intros Hne w'.
  assert (∀ id s', data (store w') !! id = Some s' →
            category s' ≠ Some lastCategory
            ∧ defaultCategory s' ≠ Some lastCategory) as Hnone.
  { intros id s'. unfold w'. rewrite store_renameCategory.
    rewrite renameCategory_produce_lookup.
    destruct (decide (id ∈ subscriptionIds lastCategory (store w))) as [Hin|Hin].
    - destruct (data (store w) !! id) as [s|]; [|done].
      intros [= <-]. simpl. split; congruence.
    - intros Hs. split; intros Hc; apply Hin, elem_of_subscriptionIds;
        exists s'; tauto. }
  split; [exact Hnone|].
  intros other response'. rewrite store_renameCategory.
  assert (subscriptionIds lastCategory (store w') = []) as ->.
  { apply elem_of_nil_inv. intros id (s' & Hs' & Hm)%elem_of_subscriptionIds.
    destruct (Hnone id s' Hs') as [Hc Hd]. tauto. }
  unfold w'. rewrite store_renameCategory. done.
Qed.

Lemma renameCategory_leaves_no_match_witness :
  let w' := exec (renameCategory "Tech" "News" (Fulfilled ())) tech_world in
  (∀ id s', data (store w') !! id = Some s' →
            category s' ≠ Some "Tech" ∧ defaultCategory s' ≠ Some "Tech")
  ∧ store (exec (renameCategory "Tech" "Other" Rejected) w') = store w'.
Proof.
  intros w'.
  assert ("Tech" ≠ "News") as Hne by discriminate.
  destruct (renameCategory_leaves_no_match "Tech" "News" (Fulfilled ())
              tech_world Hne) as [Hnone Hagain].
  split; [exact Hnone|apply Hagain].
Defined.

(** ** [deleteCategory] *)

Section DeleteCategoryMore.
Context `{DomainLib}.

Lemma clear_category_feedId feeds s : feedId (clear_category feeds s) = feedId s.
Proof.
  unfold clear_category. destruct (feeds !! feedId s) as [feed|]; [|done].
  by destruct (negb (truthy (siteUrl feed))).
Qed.

(** X13. A fulfilled [deleteCategory] changes no bucket, no view and no
    feed id, adds no entry to [data] and removes none from it, listed or
    not, leaves the subscriptions whose feed id is not listed as they
    were, and does not write to the feed store. *)
Theorem deleteCategory_frame (ids : list string) (w : World) :
  let st := store w in
  let w' := exec (deleteCategory ids (Fulfilled ())) w in
  feedIdByView (store w') = feedIdByView st
  ∧ feedStore w' = feedStore w
  ∧ (∀ id, id ∉ ids → data (store w') !! id = data st !! id)
  ∧ (∀ id s', data (store w') !! id = Some s' →
              ∃ s, data st !! id = Some s
                   ∧ feedId s' = feedId s ∧ view s' = view s)
  ∧ (∀ id, data st !! id = None → data (store w') !! id = None)
  ∧ (∀ id s, data st !! id = Some s →
             ∃ s', data (store w') !! id = Some s'
                   ∧ feedId s' = feedId s ∧ view s' = view s).
Proof.
  intros st w'. unfold w'. rewrite store_deleteCategory. fold st.
  split_and!; [done| | | | |].
  - unfold exec, deleteCategory, doMutationAndTransaction.
    unfold mbind, Action_bind, set, get, getFeeds.
    cbn -[for_each deleteCategory_produce].
    match goal with
    | |- feedStore (for_each ids ?body ?w0).2 = _ =>
        rewrite (for_each_calls ids body
                   (λ id, match data (store w0) !! id with
                          | Some s => [SubscriptionService_upsert s]
                          | None => []
                          end) w0)
    end; [done|].
    intros id w1. cbn [store]. destruct (_ !! id); [done|].
    unfold mret, Action_ret. destruct w1. simpl. by rewrite app_nil_r.
  - intros id Hid. rewrite deleteCategory_produce_lookup.
    rewrite bool_decide_eq_false_2 by done. by destruct (data st !! id).
  - intros id s'. rewrite deleteCategory_produce_lookup.
    destruct (data st !! id) as [s|]; [|done].
    intros [= <-]. exists s. split; [done|].
    case_bool_decide; [|done].
    by rewrite clear_category_feedId, clear_category_view.
  - intros id Hn. by rewrite deleteCategory_produce_lookup, Hn.
  - intros id s Hs. rewrite deleteCategory_produce_lookup, Hs.
    cbn [fmap option_fmap option_map].
    eexists. split; [done|]. case_bool_decide; [|done].
    by rewrite clear_category_feedId, clear_category_view.
Qed.

(** X14. When the feed of a listed subscription has a site URL in which
    [parse] finds no domain, a fulfilled [deleteCategory] clears its
    [category] and leaves its [defaultCategory] as it was. *)
Theorem deleteCategory_without_domain (ids : list string) (w : World)
    (id : string) (s : SubscriptionFlatModel) (feed : FeedModel) :
  id ∈ ids →
  data (store w) !! id = Some s →
  feedStore w !! feedId s = Some feed →
  truthy (siteUrl feed) = true →
  truthy (siteUrl feed ≫= parse_domain) = false →
  data (store (exec (deleteCategory ids (Fulfilled ())) w)) !! id
  = Some {| feedId := feedId s; view := view s; category := None;
            defaultCategory := defaultCategory s |}.
Proof.
  intros Hid Hs Hfeed Hurl Hdomain.
  rewrite store_deleteCategory, deleteCategory_produce_lookup, Hs.
  cbn [fmap option_fmap option_map]. rewrite bool_decide_eq_true_2 by done.
  unfold clear_category. by rewrite Hfeed, Hurl, Hdomain.
Qed.

(** X15. A fulfilled [deleteCategory] writes to the persistence layer the
    subscription, as the state then has it, of every listed feed id that
    has an entry in [data], once per listing and in the order of the
    list; a listed feed id without an entry is passed over. *)
Theorem deleteCategory_persists_listed (ids : list string) (w : World) :
  let w' := exec (deleteCategory ids (Fulfilled ())) w in
  calls w'
  = calls w
    ++ (SubscriptionService_upsert <$> omap (λ id, data (store w') !! id) ids).
Proof.
  intros w'. unfold w'. rewrite store_deleteCategory.
  unfold exec, deleteCategory, doMutationAndTransaction.
  unfold mbind, Action_bind, set, get, getFeeds.
  cbn -[for_each deleteCategory_produce].
  match goal with
  | |- calls (for_each ids ?body ?w0).2 = _ =>
      rewrite (for_each_calls ids body
                 (λ id, match data (store w0) !! id with
                        | Some s => [SubscriptionService_upsert s]
                        | None => []
                        end) w0)
  end.
  - cbn [snd calls store]. by rewrite bind_upsert_calls.
  - intros id w1. cbn [store]. destruct (_ !! id); [done|].
    unfold mret, Action_ret. destruct w1. simpl. by rewrite app_nil_r.
Qed.
End DeleteCategoryMore.

Lemma deleteCategory_without_domain_witness :
  let w := exec (upsertMany [ {| feedId := "f4"; view := Pictures;
                                 category := Some "Tech";
                                 defaultCategory := Some "Local" |} ])
                local_world in
  feedStore w !! "f4" = Some {| feed_id := "f4"; siteUrl := Some "http://localhost" |}
  ∧ data (store (exec (deleteCategory ["f3"; "f4"] (Fulfilled ())) w)) !! "f4"
    = Some {| feedId := "f4"; view := Pictures; category := None;
              defaultCategory := Some "Local" |}.
Proof.
  intros w. split; [reflexivity|].
  apply (deleteCategory_without_domain ["f3"; "f4"] w "f4"
           {| feedId := "f4"; view := Pictures; category := Some "Tech";
              defaultCategory := Some "Local" |}
           {| feed_id := "f4"; siteUrl := Some "http://localhost" |}).
  - apply elem_of_cons. right. apply list_elem_of_here.
  - reflexivity.
  - reflexivity.
  - reflexivity.
  - reflexivity.
Defined.

Lemma deleteCategory_frame_witness :
  data (store (exec (deleteCategory ["f3"] (Fulfilled ())) local_world)) !! "f4"
  = data (store local_world) !! "f4"
  ∧ data (store (exec (deleteCategory ["f9"] (Fulfilled ())) local_world)) !! "f9"
    = None
  ∧ ∃ s', data (store (exec (deleteCategory ["f3"; "f4"] (Fulfilled ()))
                         local_world)) !! "f4" = Some s'
          ∧ feedId s' = "f4" ∧ view s' = Pictures.
Proof.
  split_and!.
  - apply (deleteCategory_frame ["f3"] local_world).
    apply not_elem_of_compute. vm_compute. reflexivity.
  - apply (deleteCategory_frame ["f9"] local_world). reflexivity.
  - destruct (deleteCategory_frame ["f3"; "f4"] local_world)
      as (_ & _ & _ & _ & _ & Hstays).
    apply (Hstays "f4" (morphSubscription local_subscription)). reflexivity.
Defined.

(** What [deleteCategory] persists in the world of the scenario: [f9] has
    no entry, and [f3], whose feed has no site URL, is written with its
    category. *)
Example deleteCategory_persists_scenario :
  calls (exec (deleteCategory ["f9"; "f4"; "f3"] (Fulfilled ())) local_world)
  = calls local_world
    ++ [SubscriptionService_upsert
          {| feedId := "f4"; view := Pictures; category := None;
             defaultCategory := None |};
        SubscriptionService_upsert
          {| feedId := "f3"; view := Articles; category := Some "Tech";
             defaultCategory := None |}].
Proof. vm_compute. done. Qed.

(** ** [changeCategoryView] *)

Lemma bind_singleton_fmap {A B} (f : A → B) (l : list A) :
  (l ≫= λ x, [f x]) = f <$> l.
Proof.
  induction l as [|x l IH]; [done|].
  cbn [mbind list_bind fmap list_fmap app]. by rewrite <- IH.
Qed.

(** X16. With the same view as source and target, and every remote patch
    fulfilled, [changeCategoryView] moves the matched feed ids to the end
    of the bucket: the bucket holds the same feed ids as before, and the
    other buckets are as they were. *)
Theorem changeCategoryView_same_view_reorders (c : string) (v : FeedViewType)
    (patch : string → Outcome unit) (w : World) :
  (∀ id, id ∈ folderFeedIds c v (store w) → patch id = Fulfilled ()) →
  let st := store w in
  let st' := store (exec (changeCategoryView c v v patch) w) in
  feedIdByView st' v
    = filter (λ id, ¬ in_folder c st id) (feedIdByView st v)
      ++ filter (λ id, Is_true (in_folder c st id)) (feedIdByView st v)
  ∧ feedIdByView st' v ≡ₚ feedIdByView st v
  ∧ ∀ v', v' ≠ v → feedIdByView st' v' = feedIdByView st v'.
Proof.
  intros Hok st st'. unfold st'.
  rewrite store_changeCategoryView_fulfilled by done. fold st.
  destruct (changeCategoryView_produce_moves c v v st) as (_ & Hsame & Hother).
  rewrite (Hsame eq_refl). split_and!; [done| |].
  - rewrite Permutation_app_comm.
    apply (filter_app_complement (λ id, Is_true (in_folder c st id))).
  - intros v' Hv'. by apply Hother.
Qed.

Lemma changeCategoryView_same_view_reorders_witness :
  let w := exec (fetchByView None
                   (Fulfilled [tech_subscription; scenario_subscription]))
                initialWorld in
  feedIdByView (store w) Articles = ["f3"; "f1"]
  ∧ feedIdByView (store (exec (changeCategoryView "Tech" Articles Articles
                                 (λ _, Fulfilled ())) w)) Articles
    = ["f1"; "f3"].
Proof.
  intros w. split; [reflexivity|].
  exact (proj1 (changeCategoryView_same_view_reorders "Tech" Articles
                  (λ _, Fulfilled ()) w (λ _ _, eq_refl))).
Defined.

(** X17. When the remote patch of one of the collected feed ids is
    rejected, [changeCategoryView] is rejected and nothing has changed:
    not the state, and no view change was written to the persistence
    layer. *)
Theorem changeCategoryView_rejected_no_effect (c : string)
    (currentView changeToView : FeedViewType)
    (patch : string → Outcome unit) (w : World) :
  (∃ id, id ∈ folderFeedIds c currentView (store w) ∧ patch id = Rejected) →
  changeCategoryView c currentView changeToView patch w = (Rejected, w).
Proof.
  intros Hbad. unfold changeCategoryView.
  unfold mbind at 1, Action_bind at 1. simpl.
  unfold mbind at 1, Action_bind at 1.
  by rewrite for_each_remote_rejected.
Qed.

Lemma changeCategoryView_rejected_no_effect_witness :
  changeCategoryView "Tech" Articles Videos
    (λ id, if bool_decide (id = "f3") then Rejected else Fulfilled ()) tech_world
  = (Rejected, tech_world).
Proof.
  apply changeCategoryView_rejected_no_effect.
  exists "f3". split; [|reflexivity].
  apply elem_of_folderFeedIds. split; [exact I|].
  apply elem_of_cons. right. apply list_elem_of_here.
Defined.

(** The world that a [changeCategoryView] with fulfilled patches leaves. *)
Lemma changeCategoryView_fulfilled_world (c : string)
    (currentView changeToView : FeedViewType)
    (patch : string → Outcome unit) (w : World) :
  (∀ id, id ∈ folderFeedIds c currentView (store w) → patch id = Fulfilled ()) →
  changeCategoryView c currentView changeToView patch w
  = (Fulfilled (),
     {| store := changeCategoryView_produce
                   (folderFeedIds c currentView (store w))
                   currentView changeToView (store w);
        feedStore := feedStore w;
        calls := calls w
                 ++ ((λ id, SubscriptionService_changeView id changeToView)
                       <$> folderFeedIds c currentView (store w)) |}).
Proof.
  intros Hok. unfold changeCategoryView.
  unfold mbind at 1, Action_bind at 1. simpl.
  unfold mbind at 1, Action_bind at 1.
  rewrite for_each_remote_fulfilled by done.
  unfold mbind at 1, Action_bind at 1. simpl.
  rewrite (for_each_calls _ _
             (λ id, [SubscriptionService_changeView id changeToView]));
    [|done].
  simpl. by rewrite bind_singleton_fmap.
Qed.

(** X18. When every remote patch is fulfilled, [changeCategoryView] writes
    one view change to the persistence layer for every collected feed id,
    in the order of the bucket, and does not write to the feed store. *)
Theorem changeCategoryView_persists_each_move (c : string)
    (currentView changeToView : FeedViewType)
    (patch : string → Outcome unit) (w : World) :
  (∀ id, id ∈ folderFeedIds c currentView (store w) → patch id = Fulfilled ()) →
  let w' := exec (changeCategoryView c currentView changeToView patch) w in
  calls w'
  = calls w
    ++ ((λ id, SubscriptionService_changeView id changeToView)
          <$> folderFeedIds c currentView (store w))
  ∧ feedStore w' = feedStore w.
Proof.
  intros Hok w'. unfold w', exec.
  by rewrite changeCategoryView_fulfilled_world.
Qed.

Lemma changeCategoryView_persists_each_move_witness :
  calls (exec (changeCategoryView "Tech" Articles Videos (λ _, Fulfilled ()))
           tech_world)
  = calls tech_world ++ [SubscriptionService_changeView "f3" Videos].
Proof.
  exact (proj1 (changeCategoryView_persists_each_move "Tech" Articles Videos
                  (λ _, Fulfilled ()) tech_world (λ _ _, eq_refl))).
Defined.

(** X19. When no feed id of the bucket matches the category,
    [changeCategoryView] is fulfilled without a remote call having to
    succeed, and the world is as it was. *)
Theorem changeCategoryView_no_match (c : string)
    (currentView changeToView : FeedViewType)
    (patch : string → Outcome unit) (w : World) :
  (∀ id, id ∈ feedIdByView (store w) currentView → ¬ in_folder c (store w) id) →
  changeCategoryView c currentView changeToView patch w = (Fulfilled (), w).
Proof.
  intros Hnone.
  assert (folderFeedIds c currentView (store w) = []) as Hempty.
  { apply elem_of_nil_inv. intros id [Hm Hin]%elem_of_folderFeedIds.
    by apply (Hnone id). }
  unfold changeCategoryView.
  unfold mbind at 1, Action_bind at 1. simpl. rewrite Hempty. simpl.
  by destruct w as [[] ? ?].
Qed.

Lemma changeCategoryView_no_match_witness :
  changeCategoryView "Sports" Articles Videos (λ _, Rejected) tech_world
  = (Fulfilled (), tech_world).
Proof.
  apply changeCategoryView_no_match.
  intros id Hin.
  apply elem_of_cons in Hin as [->|Hin];
    [|apply list_elem_of_singleton in Hin as ->]; exact (λ Hfalse, Hfalse).
Defined.

(** X20. Between two different views, and with every remote patch
    fulfilled, [changeCategoryView] loses and invents no feed id: the two
    buckets together hold the same feed ids, as often, as before. *)
Theorem changeCategoryView_conserves_ids (c : string)
    (fromView toView : FeedViewType)
    (patch : string → Outcome unit) (w : World) :
  (∀ id, id ∈ folderFeedIds c fromView (store w) → patch id = Fulfilled ()) →
  fromView ≠ toView →
  let st := store w in
  let st' := store (exec (changeCategoryView c fromView toView patch) w) in
  feedIdByView st' fromView ++ feedIdByView st' toView
  ≡ₚ feedIdByView st fromView ++ feedIdByView st toView.
Proof.
  intros Hok Hne st st'. unfold st'.
  rewrite store_changeCategoryView_fulfilled by done. fold st.
  destruct (changeCategoryView_produce_moves c fromView toView st)
    as (Hmove & _ & _).
  destruct (Hmove Hne) as [-> ->].
  rewrite (Permutation_app_comm (feedIdByView st toView)).
  rewrite app_assoc.
  rewrite (Permutation_app_comm (filter _ _) (filter _ _)).
  by rewrite (filter_app_complement (λ id, Is_true (in_folder c st id))).
Qed.

Lemma changeCategoryView_conserves_ids_witness :
  let st' := store (exec (changeCategoryView "Tech" Articles Videos
                            (λ _, Fulfilled ())) tech_world) in
  feedIdByView st' Articles ++ feedIdByView st' Videos
  ≡ₚ feedIdByView (store tech_world) Articles
     ++ feedIdByView (store tech_world) Videos.
Proof.
  intros st'.
  assert (Articles ≠ Videos) as Hne by discriminate.
  exact (changeCategoryView_conserves_ids "Tech" Articles Videos
           (λ _, Fulfilled ()) tech_world (λ _ _, eq_refl) Hne).
Defined.

(** ** Buckets without duplicates *)

(** X21. A state in which no bucket holds a feed id twice stays so through
    [unfollow], through [changeCategoryView] when the invariant holds, and
    through [upsertMany] of subscriptions with distinct feed ids that are
    in no bucket yet. *)
Theorem buckets_stay_duplicate_free (w : World) :
  once_in_bucket (store w) →
  (∀ id response, once_in_bucket (store (exec (unfollow id response) w)))
  ∧ (Inv (store w) →
     ∀ c currentView changeToView patch,
       once_in_bucket
         (store (exec (changeCategoryView c currentView changeToView patch) w)))
  ∧ (∀ subscriptions,
       NoDup (feedId <$> subscriptions) →
       (∀ s v, s ∈ subscriptions → feedId s ∉ feedIdByView (store w) v) →
       once_in_bucket (store (exec (upsertMany subscriptions) w))).
Proof.
  intros Hnd. split_and!.
  - intros id response v. rewrite store_unfollow, unfollow_produce_bucket.
    eapply sublist_NoDup; [apply Hnd|apply splice_indexOf_sublist].
  - intros [_ Hone] c currentView changeToView patch.
    destruct (for_each_remote_cases (folderFeedIds c currentView (store w))
                patch) as [Hok|Hbad];
      [|by rewrite exec_changeCategoryView_rejected].
    rewrite store_changeCategoryView_fulfilled by done.
    destruct (changeCategoryView_produce_moves c currentView changeToView
                (store w)) as (Hmove & Hsame & Hother).
    intros v. destruct (decide (currentView = changeToView)) as [Heq|Hne].
    + destruct (decide (v = currentView)) as [->|Hv].
      * rewrite (Hsame Heq). rewrite Permutation_app_comm.
        rewrite (filter_app_complement
                   (λ id, Is_true (in_folder c (store w) id))).
        apply Hnd.
      * rewrite Hother by congruence. apply Hnd.
    + destruct (Hmove Hne) as [Hfrom Hto].
      destruct (decide (v = currentView)) as [->|Hv].
      * rewrite Hfrom. apply NoDup_filter, Hnd.
      * destruct (decide (v = changeToView)) as [->|Hv'].
        -- rewrite Hto. apply NoDup_app. split_and!.
           ++ apply Hnd.
           ++ intros x Hx [_ Hx']%list_elem_of_filter.
              apply Hne. symmetry. by apply (Hone _ _ x).
           ++ apply NoDup_filter, Hnd.
        -- rewrite Hother by done. apply Hnd.
  - intros subscriptions Hids Hfresh v.
    rewrite store_upsertMany, upsertMany_produce_buckets.
    apply NoDup_app. split_and!.
    + apply Hnd.
    + intros x Hx (s & Hs & <- & _)%elem_of_upserted. by apply (Hfresh s v).
    + eapply sublist_NoDup; [exact Hids|].
      apply fmap_sublist, sublist_filter.
Qed.

Lemma once_in_bucket_two_feeds_world : once_in_bucket (store two_feeds_world).
Proof. intros v. apply (bool_decide_unpack _). by destruct v. Qed.

Lemma buckets_stay_duplicate_free_witness :
  once_in_bucket (store (exec (unfollow "f1" Rejected) two_feeds_world))
  ∧ once_in_bucket
      (store (exec (changeCategoryView "Example.com" Articles Videos
                      (λ _, Fulfilled ())) two_feeds_world))
  ∧ once_in_bucket
      (store (exec (upsertMany [morphSubscription tech_subscription])
                two_feeds_world)).
Proof.
  destruct (buckets_stay_duplicate_free two_feeds_world
              once_in_bucket_two_feeds_world) as (Hunfollow & Hchange & Hupsert).
  split_and!.
  - apply Hunfollow.
  - apply Hchange, Inv_two_feeds_world.
  - apply Hupsert.
    + apply (bool_decide_unpack _). vm_compute. exact I.
    + intros s v Hs. apply list_elem_of_singleton in Hs as ->.
      apply not_elem_of_compute. by destruct v.
Defined.

(** ** [markReadByView] and [markReadByFeedIds] *)

Lemma markRead_each_calls (filter : option MarkReadFilter) (id : string)
    (w : World) :
  markRead_each filter id w
  = (Fulfilled (),
     {| store := store w; feedStore := feedStore w;
        calls := calls w ++ markRead_calls filter id |}).
Proof.
  unfold markRead_each, markRead_calls, mbind, Action_bind, when, call.
  destruct filter as [f|]; simpl; [done|]. by rewrite <- app_assoc.
Qed.

(** The world that the transaction of the two methods leaves. *)
Lemma markRead_transaction_world (feedIds : list string)
    (view : option FeedViewType) (filter : option MarkReadFilter) (w : World) :
  (for_each feedIds (markRead_each filter);;
   when (bool_decide (is_Some filter))
        (call (feedUnreadActions_fetchUnreadByView view))) w
  = (Fulfilled (),
     {| store := store w; feedStore := feedStore w;
        calls := calls w
                 ++ (feedIds ≫= markRead_calls filter)
                 ++ (if bool_decide (is_Some filter)
                     then [feedUnreadActions_fetchUnreadByView view]
                     else []) |}).
Proof.
  unfold mbind at 1, Action_bind.
  rewrite (for_each_calls feedIds _ (markRead_calls filter))
    by apply markRead_each_calls.
  unfold when, call, mret, Action_ret.
  destruct (bool_decide (is_Some filter)); simpl.
  - by rewrite <- app_assoc.
  - by rewrite app_nil_r.
Qed.

Lemma markReadByFeedIds_world_when_fulfilled (feedIds : list string)
    (view : option FeedViewType) (filter : option MarkReadFilter) (w : World) :
  markReadByFeedIds feedIds view filter (Fulfilled ()) w
  = (Fulfilled (),
     {| store := store w; feedStore := feedStore w;
        calls := calls w
                 ++ (feedIds ≫= markRead_calls filter)
                 ++ (if bool_decide (is_Some filter)
                     then [feedUnreadActions_fetchUnreadByView view]
                     else []) |}).
Proof.
  unfold markReadByFeedIds, detached, doMutationAndTransaction,
    apiClient_reads_all_post, remote.
  by rewrite markRead_transaction_world.
Qed.

Lemma markReadByView_world_when_fulfilled (v : FeedViewType)
    (filter : option MarkReadFilter) (w : World) :
  markReadByView v filter (Fulfilled ()) w
  = (Fulfilled (),
     {| store := store w; feedStore := feedStore w;
        calls := calls w
                 ++ (feedIdsOfView v (store w) ≫= markRead_calls filter)
                 ++ (if bool_decide (is_Some filter)
                     then [feedUnreadActions_fetchUnreadByView (Some v)]
                     else []) |}).
Proof.
  unfold markReadByView, detached, doMutationAndTransaction,
    apiClient_reads_all_post, remote.
  unfold mbind at 1, Action_bind at 1, get.
  by rewrite markRead_transaction_world.
Qed.

Lemma elem_of_feedIdsOfView (v : FeedViewType) (st : SubscriptionState)
    (id : string) :
  id ∈ feedIdsOfView v st ↔ ∃ s, data st !! id = Some s ∧ view s = v.
Proof.
  unfold feedIdsOfView. rewrite list_elem_of_fmap. split.
  - intros ([k s] & -> & Hin). apply list_elem_of_filter in Hin as [Hv Hin].
    apply elem_of_map_to_list in Hin. by exists s.
  - intros (s & Hs & Hv). exists (id, s). split; [done|].
    apply list_elem_of_filter. split; [done|]. by apply elem_of_map_to_list.
Qed.

Lemma NoDup_feedIdsOfView (v : FeedViewType) (st : SubscriptionState) :
  NoDup (feedIdsOfView v st).
Proof.
  unfold feedIdsOfView. apply NoDup_fmap_fst.
  - intros k s1 s2 [_ H1]%list_elem_of_filter [_ H2]%list_elem_of_filter.
    apply elem_of_map_to_list in H1, H2. congruence.
  - apply NoDup_filter, NoDup_map_to_list.
Qed.

(** X22. What a fulfilled [markReadByFeedIds] does: for every listed feed
    id, in the order of the list, it sets the unread count to zero when no
    filter is given, and patches the entries; with a filter it sets no
    unread count and asks for the unread counts of the view at the end. *)
Theorem markReadByFeedIds_fulfilled (feedIds : list string)
    (view : option FeedViewType) (filter : option MarkReadFilter) (w : World) :
  calls (exec (markReadByFeedIds feedIds view filter (Fulfilled ())) w)
  = calls w
    ++ (feedIds ≫= λ id,
          (if negb (bool_decide (is_Some filter))
           then [feedUnreadActions_updateByFeedId id 0] else [])
          ++ [entryActions_patchManyByFeedId id filter])
    ++ (if bool_decide (is_Some filter)
        then [feedUnreadActions_fetchUnreadByView view]
        else []).
Proof. unfold exec. by rewrite markReadByFeedIds_world_when_fulfilled. Qed.

(** X23. After a fulfilled remote call [markReadByView] makes its calls
    to the unread store and the entry store for the feed ids that have an
    entry in [data] with the view as stored view, for each of them once
    and for no other; it reads [data], not the buckets. The calls for one
    feed id and the closing call are those of [markReadByFeedIds]. *)
Theorem markReadByView_calls_for_stored_view (v : FeedViewType)
    (filter : option MarkReadFilter) (w : World) :
  ∃ feedIds,
    NoDup feedIds
    ∧ (∀ id, id ∈ feedIds ↔ ∃ s, data (store w) !! id = Some s ∧ view s = v)
    ∧ calls (exec (markReadByView v filter (Fulfilled ())) w)
      = calls w
        ++ (feedIds ≫= λ id,
              (if negb (bool_decide (is_Some filter))
               then [feedUnreadActions_updateByFeedId id 0] else [])
              ++ [entryActions_patchManyByFeedId id filter])
        ++ (if bool_decide (is_Some filter)
            then [feedUnreadActions_fetchUnreadByView (Some v)]
            else []).
Proof.
  exists (feedIdsOfView v (store w)). split_and!.
  - apply NoDup_feedIdsOfView.
  - apply elem_of_feedIdsOfView.
  - unfold exec. by rewrite markReadByView_world_when_fulfilled.
Qed.

(** X24. Whatever the remote call does, [markReadByView] and
    [markReadByFeedIds] leave the subscription state and the feed store as
    they were. *)
Theorem markRead_leaves_state (w : World) (response : Outcome unit) :
  (∀ view filter,
     store (exec (markReadByView view filter response) w) = store w
     ∧ feedStore (exec (markReadByView view filter response) w) = feedStore w)
  ∧ (∀ feedIds view filter,
       store (exec (markReadByFeedIds feedIds view filter response) w) = store w
       ∧ feedStore (exec (markReadByFeedIds feedIds view filter response) w)
         = feedStore w).
Proof.
  split.
  - intros view filter. unfold exec. destruct response as [[]|].
    + by rewrite markReadByView_world_when_fulfilled.
    + done.
  - intros feedIds view filter. unfold exec. destruct response as [[]|].
    + by rewrite markReadByFeedIds_world_when_fulfilled.
    + done.
Qed.

(** ** [deleteCategory] after a rejected remote call *)

Section DeleteCategoryRejected.
Context `{DomainLib}.

(** X27. [deleteCategory] passes [doTranscationWhenMutationFail: false]
    and [waitMutation: true] and returns what the helper returns: when the
    remote call is rejected the method is rejected, and the state, the
    feed store and the calls to the other stores and to the persistence
    layer are as they were, whatever the list and the state. *)
Theorem deleteCategory_rejected_no_effect (ids : list string) (w : World) :
  deleteCategory ids Rejected w = (Rejected, w).
Proof.
  unfold deleteCategory. by apply doMutationAndTransaction_rejected.
Qed.
End DeleteCategoryRejected.

(** * The media component *)

Section MediaProperties.
Import Media.
Context `{ImgProxy}.

(** After an error the image source is the source of the props. *)
Lemma errorHandle_imgSrc (props : Props) (st : State)
    (failedList : gset (option string)) :
  imgSrc (state (errorHandle props st failedList)) = src props.
Proof.
  unfold errorHandle.
  destruct (decide (imgSrc st = src props)) as [Heq|Hne].
  - rewrite bool_decide_eq_false_2 by (intros Hn; by apply Hn). done.
  - by rewrite bool_decide_eq_true_2.
Qed.

(** X25. Two errors in a row hide the media, whatever its state was: the
    first one falls back to the source of the props when the image came
    from somewhere else, the second one sets [hidden] and calls
    [props.onError]; with [showFallback] the component then renders
    [FallbackMedia]. *)
Theorem errorHandle_twice_hides (props : Props) (st : State)
    (failedList : gset (option string)) :
  let first := errorHandle props st failedList in
  let second := errorHandle props (state first) (failed first) in
  hidden (state second) = true
  ∧ onError second = true
  ∧ failed second = failed first
  ∧ (showFallback props = true → is_Some (type props) →
     truthy (src props) = true →
     render props (state second) = RenderFallback).
Proof.
  intros first second.
  assert (imgSrc (state first) = src props) as Himg
    by apply errorHandle_imgSrc.
  unfold second, errorHandle at 1 2 3.
  rewrite bool_decide_eq_false_2 by (intros Hne; by apply Hne).
  split_and!; [done..|].
  intros Hfb [t Ht] Hsrc. unfold render at 1.
  rewrite Ht, Hsrc, Hfb. simpl.
  unfold errorHandle.
  by rewrite bool_decide_eq_false_2 by (intros Hne; by apply Hne).
Qed.

(** X26. An error on an image that did not come from the source of the
    props, that is, on a proxied image, falls back to the source without
    hiding the media and without calling [props.onError], and puts the
    source on [failedList]; a component mounted later with that source
    uses it as it is, with or without a proxy in its props. *)
Theorem errorHandle_proxy_falls_back (props : Props) (st : State)
    (failedList : gset (option string)) :
  imgSrc st ≠ src props →
  let handled := errorHandle props st failedList in
  imgSrc (state handled) = src props
  ∧ hidden (state handled) = hidden st
  ∧ mediaLoadState (state handled) = error
  ∧ onError handled = false
  ∧ src props ∈ failed handled
  ∧ ∀ props', src props' = src props →
              imgSrc (mount props' (failed handled)) = src props.
Proof.
  intros Hne handled. unfold handled, errorHandle.
  rewrite bool_decide_eq_true_2 by done. simpl.
  split_and!; [done..| |].
  - apply elem_of_union. left. by apply elem_of_singleton.
  - intros props' Hsrc. unfold mount. simpl.
    destruct (proxy props') as [p|]; [|done].
    destruct (src props') as [url|] eqn:Hurl; [|done].
    rewrite bool_decide_eq_true_2.
    + rewrite andb_false_r. done.
    + apply elem_of_union. left. apply elem_of_singleton. done.
Qed.
End MediaProperties.

Lemma errorHandle_twice_hides_witness :
  let mounted := Media.mount (H := Media.scenario_proxy) Media.scenario_props ∅ in
  let first := Media.errorHandle Media.scenario_props mounted ∅ in
  let second :=
    Media.errorHandle Media.scenario_props (Media.state first) (Media.failed first) in
  Media.hidden mounted = false
  ∧ Media.hidden (Media.state first) = false
  ∧ Media.hidden (Media.state second) = true
  ∧ Media.render Media.scenario_props (Media.state second) = Media.RenderFallback.
Proof.
  intros mounted first second.
  destruct (errorHandle_twice_hides Media.scenario_props mounted ∅)
    as (Hhidden & _ & _ & Hrender).
  split; [reflexivity|]. split; [reflexivity|]. split; [exact Hhidden|].
  apply Hrender; [reflexivity|by eexists|reflexivity].
Defined.

Lemma errorHandle_proxy_falls_back_witness :
  let mounted := Media.mount (H := Media.scenario_proxy) Media.scenario_props ∅ in
  let handled := Media.errorHandle Media.scenario_props mounted ∅ in
  Media.imgSrc mounted
  = Some "https://proxy.example/https://a.example/p.png"
  ∧ Media.imgSrc (Media.state handled) = Some "https://a.example/p.png"
  ∧ Media.imgSrc (Media.mount (H := Media.scenario_proxy) Media.scenario_props
                    (Media.failed handled))
    = Some "https://a.example/p.png".
Proof.
  intros mounted handled.
  assert (Media.imgSrc mounted ≠ Media.src Media.scenario_props) as Hne
    by discriminate.
  destruct (errorHandle_proxy_falls_back (H := Media.scenario_proxy)
              Media.scenario_props mounted ∅ Hne)
    as (Himg & _ & _ & _ & _ & Hlater).
  split; [reflexivity|]. split; [exact Himg|].
  exact (Hlater Media.scenario_props eq_refl).
Defined.

